(** * URI codec of the pull-request extension (src/common/uri.ts)

    A shallow embedding of the query-string codec: the parameter records,
    the [to...Uri] encoders, the [from...Uri] decoders, [asImageDataURI]
    and [resolvePath], together with a model of the platform services they
    call ([JSON.stringify], [JSON.parse], the host's URI value and its
    [with] operation). *)

From Stdlib Require Import List NArith ZArith Arith Bool Lia String Ascii.
From Stdlib Require Import DecimalN DecimalPos DecimalFacts.
Import ListNotations.

Local Open Scope N_scope.

(** ** Strings

    An ECMAScript string is a sequence of UTF-16 code units.  A code unit is
    kept as an [N]; the units of a real string are below 2^16, and nothing
    below depends on the bound. *)

Definition unit16 := N.
Definition jsstring := list unit16.

(** [js] turns an ASCII literal into the string with the same characters. *)
Definition js (s : string) : jsstring :=
  List.map N_of_ascii (list_ascii_of_string s).

Fixpoint jsstring_eqb (a b : jsstring) : bool :=
  match a, b with
  | [], [] => true
  | x :: a', y :: b' => (x =? y) && jsstring_eqb a' b'
  | _, _ => false
  end.

(** Named code units. *)
Definition c_quote : unit16 := 34.      (* double quote *)
Definition c_backslash : unit16 := 92.  (* backslash *)
Definition c_slash : unit16 := 47.      (* solidus *)
Definition c_lbrace : unit16 := 123.
Definition c_rbrace : unit16 := 125.
Definition c_lbracket : unit16 := 91.
Definition c_rbracket : unit16 := 93.
Definition c_colon : unit16 := 58.
Definition c_comma : unit16 := 44.
Definition c_minus : unit16 := 45.
Definition c_plus : unit16 := 43.
Definition c_dot : unit16 := 46.
Definition c_zero : unit16 := 48.

(** ** Values

    The values [JSON.parse] can produce and the object literals of the module
    are built from.  An object is the list of its own properties in property
    order. *)

(** A number is kept as the exact decimal [(-1)^neg * mant * 10^exp10] that
    its literal denotes.  The platform rounds that to binary64; the rounding
    is not modelled, so equality here is finer than [===], and the two agree
    on integers up to 2^53 in magnitude. *)
Record jsnumber := mkNumber { num_neg : bool; num_mant : N; num_exp10 : Z }.

Definition number_of_Z (z : Z) : jsnumber :=
  mkNumber (z <? 0)%Z (Z.abs_N z) 0.

#[local] Set Warnings "-register-all".

Inductive value :=
| VUndefined
| VNull
| VBool (b : bool)
| VNumber (n : jsnumber)
| VString (s : jsstring)
| VArray (elems : list value)
| VObject (props : list (jsstring * value)).

(** What a [throw] carries. *)
Inductive exn :=
| SyntaxError
| TypeError
| Thrown (v : value).

(** The completion of a synchronous evaluation. *)
Inductive completion (A : Type) :=
| Normal (a : A)
| Throw (e : exn).
Arguments Normal {A} a.
Arguments Throw {A} e.

Definition bind {A B} (c : completion A) (k : A -> completion B) : completion B :=
  match c with
  | Normal a => k a
  | Throw e => Throw e
  end.

(** [try { return c } catch (e) { return h e }] *)
Definition try_catch {A} (c : completion A) (h : exn -> completion A) : completion A :=
  match c with
  | Normal a => Normal a
  | Throw e => h e
  end.

Notation "x <- c ;; k" := (bind c (fun x => k))
  (at level 61, c at next level, right associativity).

(** ** JSON.stringify: strings

    [QuoteJSONString] of ECMA-262: the two-character escapes, a lowercase
    [\uXXXX] for the other control characters and for a surrogate that is not
    part of a pair, every other code unit as it is. *)

Definition hex_digit (n : N) : unit16 := if n <? 10 then 48 + n else 87 + n.

Definition hex4 (c : unit16) : jsstring :=
  [ hex_digit ((c / 16 / 16 / 16) mod 16); hex_digit ((c / 16 / 16) mod 16);
    hex_digit ((c / 16) mod 16); hex_digit (c mod 16) ].

Definition unicode_escape (c : unit16) : jsstring := c_backslash :: 117 :: hex4 c.

Definition is_high_surrogate (c : unit16) : bool := (55296 <=? c) && (c <=? 56319).
Definition is_low_surrogate (c : unit16) : bool := (56320 <=? c) && (c <=? 57343).

Definition quote_unit (c : unit16) : jsstring :=
  if c =? 8 then [c_backslash; 98]
  else if c =? 9 then [c_backslash; 116]
  else if c =? 10 then [c_backslash; 110]
  else if c =? 12 then [c_backslash; 102]
  else if c =? 13 then [c_backslash; 114]
  else if c =? c_quote then [c_backslash; c_quote]
  else if c =? c_backslash then [c_backslash; c_backslash]
  else if (c <? 32) || is_high_surrogate c || is_low_surrogate c then unicode_escape c
  else [c].

Fixpoint quote_units (s : jsstring) : jsstring :=
  match s with
  | [] => []
  | c :: r =>
    match r with
    | d :: r' =>
      if is_high_surrogate c && is_low_surrogate d
      then c :: d :: quote_units r'
      else quote_unit c ++ quote_units r
    | [] => quote_unit c
    end
  end.

Definition QuoteJSONString (s : jsstring) : jsstring :=
  c_quote :: quote_units s ++ [c_quote].

(** ** JSON.parse: strings *)

Definition hex_value (c : unit16) : option N :=
  if (48 <=? c) && (c <=? 57) then Some (c - 48)
  else if (97 <=? c) && (c <=? 102) then Some (c - 87)
  else if (65 <=? c) && (c <=? 70) then Some (c - 55)
  else None.

Definition hex4_value (h1 h2 h3 h4 : unit16) : option unit16 :=
  match hex_value h1, hex_value h2, hex_value h3, hex_value h4 with
  | Some a, Some b, Some c, Some d => Some (((a * 16 + b) * 16 + c) * 16 + d)
  | _, _, _, _ => None
  end.

Definition unescape (e : unit16) : option unit16 :=
  if e =? c_quote then Some c_quote
  else if e =? c_backslash then Some c_backslash
  else if e =? c_slash then Some c_slash
  else if e =? 98 then Some 8
  else if e =? 102 then Some 12
  else if e =? 110 then Some 10
  else if e =? 114 then Some 13
  else if e =? 116 then Some 9
  else None.

Definition cons_fst {A B} (a : A) (r : option (list A * B)) : option (list A * B) :=
  match r with
  | Some (l, b) => Some (a :: l, b)
  | None => None
  end.

(** The characters of a string literal after its opening quote: the string
    they denote and the input left after the closing quote. *)
Fixpoint parse_string_body (s : jsstring) : option (jsstring * jsstring) :=
  match s with
  | [] => None
  | c :: r =>
    if c =? c_quote then Some ([], r)
    else if c =? c_backslash then
      match r with
      | [] => None
      | e :: r' =>
        if e =? 117 then
          match r' with
          | h1 :: h2 :: h3 :: h4 :: r'' =>
            match hex4_value h1 h2 h3 h4 with
            | Some u => cons_fst u (parse_string_body r'')
            | None => None
            end
          | _ => None
          end
        else
          match unescape e with
          | Some u => cons_fst u (parse_string_body r')
          | None => None
          end
      end
    else if c <? 32 then None
    else cons_fst c (parse_string_body r)
  end.

(** ** Numbers *)

Definition digit_value (c : unit16) : option N :=
  if (48 <=? c) && (c <=? 57) then Some (c - 48) else None.

(** The longest run of decimal digits at the head of [s], folded into [acc];
    [cnt] counts the digits read. *)
Fixpoint parse_digits (s : jsstring) (acc : N) (cnt : Z) : N * Z * jsstring :=
  match s with
  | [] => (acc, cnt, [])
  | c :: r =>
    match digit_value c with
    | Some d => parse_digits r (acc * 10 + d) (cnt + 1)
    | None => (acc, cnt, s)
    end
  end.

(** The integer part of a number literal: a lone 0, or a digit 1-9 followed by
    digits. *)
Definition parse_int_part (s : jsstring) : option (N * jsstring) :=
  match s with
  | [] => None
  | c :: r =>
    if c =? c_zero then Some (0, r)
    else match digit_value c with
         | Some d => let '(m, _, r') := parse_digits r d 0 in Some (m, r')
         | None => None
         end
  end.

(** The optional fraction: a dot and at least one digit.  The digits extend
    the mantissa and lower the exponent. *)
Definition parse_frac_part (m : N) (s : jsstring) : option (N * Z * jsstring) :=
  match s with
  | c :: r =>
    if c =? c_dot then
      let '(m', cnt, r') := parse_digits r m 0 in
      if (cnt =? 0)%Z then None else Some (m', (- cnt)%Z, r')
    else Some (m, 0%Z, s)
  | [] => Some (m, 0%Z, s)
  end.

(** The optional exponent: e or E, an optional sign, at least one digit. *)
Definition parse_exp_part (s : jsstring) : option (Z * jsstring) :=
  match s with
  | c :: r =>
    if (c =? 101) || (c =? 69) then
      let '(sgn, r1) :=
        match r with
        | d :: r' => if d =? c_minus then ((-1)%Z, r')
                     else if d =? c_plus then (1%Z, r') else (1%Z, r)
        | [] => (1%Z, r)
        end in
      let '(e, cnt, r2) := parse_digits r1 0 0 in
      if (cnt =? 0)%Z then None else Some ((sgn * Z.of_N e)%Z, r2)
    else Some (0%Z, s)
  | [] => Some (0%Z, s)
  end.

Definition parse_number (s : jsstring) : option (jsnumber * jsstring) :=
  let '(neg, s1) :=
    match s with
    | c :: r => if c =? c_minus then (true, r) else (false, s)
    | [] => (false, s)
    end in
  match parse_int_part s1 with
  | None => None
  | Some (m, s2) =>
    match parse_frac_part m s2 with
    | None => None
    | Some (m', e1, s3) =>
      match parse_exp_part s3 with
      | None => None
      | Some (e2, s4) => Some (mkNumber neg m' (e1 + e2), s4)
      end
    end
  end.

(** Decimal digits of a natural number, most significant first. *)
Fixpoint units_of_uint (d : Decimal.uint) : jsstring :=
  match d with
  | Decimal.Nil => []
  | Decimal.D0 l => 48 :: units_of_uint l
  | Decimal.D1 l => 49 :: units_of_uint l
  | Decimal.D2 l => 50 :: units_of_uint l
  | Decimal.D3 l => 51 :: units_of_uint l
  | Decimal.D4 l => 52 :: units_of_uint l
  | Decimal.D5 l => 53 :: units_of_uint l
  | Decimal.D6 l => 54 :: units_of_uint l
  | Decimal.D7 l => 55 :: units_of_uint l
  | Decimal.D8 l => 56 :: units_of_uint l
  | Decimal.D9 l => 57 :: units_of_uint l
  end.

Definition decimal_digits (n : N) : jsstring := units_of_uint (N.to_uint n).

(** The text of a number.  A zero of either sign prints as 0.  An integer
    prints as its digits, which is what [Number::toString] gives for every
    integer up to 2^53 in magnitude; those are the numbers this module
    serializes (PR numbers, enum codes).  Any other number is printed in a
    mantissa-and-exponent form that denotes the same decimal, where the
    platform would print the shortest digits of the rounded binary64. *)
Definition Number_toString (n : jsnumber) : jsstring :=
  if num_mant n =? 0 then [c_zero]
  else
    (if num_neg n then [c_minus] else []) ++
    decimal_digits (num_mant n) ++
    (if (num_exp10 n =? 0)%Z then []
     else 101 :: (if (num_exp10 n <? 0)%Z then [c_minus] else []) ++
          decimal_digits (Z.abs_N (num_exp10 n))).

(** ** Objects: own properties in property order

    An ordinary object lists its array-index keys first, in ascending order,
    then its other keys in the order they were created.  [obj_define] is
    CreateDataProperty: an existing key keeps its place and takes the new
    value. *)

Fixpoint all_digits (s : jsstring) : bool :=
  match s with
  | [] => true
  | c :: r => match digit_value c with Some _ => all_digits r | None => false end
  end.

(** A key is an array index when it is the canonical decimal text of an
    integer from 0 to 2^32 - 2. *)
Definition array_index (k : jsstring) : option N :=
  match k with
  | [] => None
  | c :: r =>
    if c =? c_zero then match r with [] => Some 0 | _ => None end
    else match digit_value c with
         | Some d =>
           if all_digits r then
             let '(i, _, _) := parse_digits r d 0 in
             if i <=? 4294967294 then Some i else None
           else None
         | None => None
         end
  end.

Fixpoint obj_lookup (k : jsstring) (props : list (jsstring * value)) : option value :=
  match props with
  | [] => None
  | (k', v) :: rest => if jsstring_eqb k k' then Some v else obj_lookup k rest
  end.

Fixpoint obj_replace (k : jsstring) (v : value) (props : list (jsstring * value))
  : list (jsstring * value) :=
  match props with
  | [] => []
  | (k', v') :: rest =>
    if jsstring_eqb k k' then (k', v) :: rest else (k', v') :: obj_replace k v rest
  end.

Fixpoint obj_insert_index (i : N) (k : jsstring) (v : value)
         (props : list (jsstring * value)) : list (jsstring * value) :=
  match props with
  | [] => [(k, v)]
  | (k', v') :: rest =>
    match array_index k' with
    | Some j => if j <? i then (k', v') :: obj_insert_index i k v rest
                else (k, v) :: props
    | None => (k, v) :: props
    end
  end.

Definition obj_define (k : jsstring) (v : value) (props : list (jsstring * value))
  : list (jsstring * value) :=
  match obj_lookup k props with
  | Some _ => obj_replace k v props
  | None =>
    match array_index k with
    | Some i => obj_insert_index i k v props
    | None => props ++ [(k, v)]
    end
  end.

(** ** JSON.parse *)

Definition is_ws (c : unit16) : bool :=
  (c =? 9) || (c =? 10) || (c =? 13) || (c =? 32).

Fixpoint skip_ws (s : jsstring) : jsstring :=
  match s with
  | [] => []
  | c :: r => if is_ws c then skip_ws r else s
  end.

Fixpoint strip_prefix (p s : jsstring) : option jsstring :=
  match p with
  | [] => Some s
  | a :: p' =>
    match s with
    | [] => None
    | b :: s' => if a =? b then strip_prefix p' s' else None
    end
  end.

(** The outcome of a parsing function: a result and the input left, a syntax
    error, or recursion budget used up (shown below never to happen at the
    budget [JSON_parse] gives). *)
Inductive presult :=
| POk (v : value) (rest : jsstring)
| PSyntax
| PFuel.

Fixpoint parse_value (fuel : nat) (s : jsstring) : presult :=
  match fuel with
  | O => PFuel
  | S f =>
    match skip_ws s with
    | [] => PSyntax
    | c :: r =>
      if c =? c_lbrace then
        match skip_ws r with
        | [] => PSyntax
        | d :: r' =>
          if d =? c_rbrace then POk (VObject []) r'
          else parse_members f (d :: r') []
        end
      else if c =? c_lbracket then
        match skip_ws r with
        | [] => PSyntax
        | d :: r' =>
          if d =? c_rbracket then POk (VArray []) r'
          else parse_elements f (d :: r') []
        end
      else if c =? c_quote then
        match parse_string_body r with
        | Some (str, r') => POk (VString str) r'
        | None => PSyntax
        end
      else if c =? 116 then
        match strip_prefix (js "rue") r with
        | Some r' => POk (VBool true) r'
        | None => PSyntax
        end
      else if c =? 102 then
        match strip_prefix (js "alse") r with
        | Some r' => POk (VBool false) r'
        | None => PSyntax
        end
      else if c =? 110 then
        match strip_prefix (js "ull") r with
        | Some r' => POk VNull r'
        | None => PSyntax
        end
      else
        match parse_number (c :: r) with
        | Some (n, r') => POk (VNumber n) r'
        | None => PSyntax
        end
    end
  end

(** The elements of an array from the first one on; [acc] holds those
    already read. *)
with parse_elements (fuel : nat) (s : jsstring) (acc : list value) : presult :=
  match fuel with
  | O => PFuel
  | S f =>
    match parse_value f s with
    | POk v r =>
      match skip_ws r with
      | [] => PSyntax
      | d :: r' =>
        if d =? c_comma then parse_elements f r' (acc ++ [v])
        else if d =? c_rbracket then POk (VArray (acc ++ [v])) r'
        else PSyntax
      end
    | PSyntax => PSyntax
    | PFuel => PFuel
    end
  end

(** The members of an object from a key on (whitespace before the key already
    skipped); [acc] holds the properties defined so far. *)
with parse_members (fuel : nat) (s : jsstring) (acc : list (jsstring * value)) : presult :=
  match fuel with
  | O => PFuel
  | S f =>
    match s with
    | [] => PSyntax
    | c :: r =>
      if c =? c_quote then
        match parse_string_body r with
        | None => PSyntax
        | Some (k, r1) =>
          match skip_ws r1 with
          | [] => PSyntax
          | d :: r2 =>
            if d =? c_colon then
              match parse_value f r2 with
              | POk v r3 =>
                match skip_ws r3 with
                | [] => PSyntax
                | e :: r4 =>
                  if e =? c_comma then parse_members f (skip_ws r4) (obj_define k v acc)
                  else if e =? c_rbrace then POk (VObject (obj_define k v acc)) r4
                  else PSyntax
                end
              | PSyntax => PSyntax
              | PFuel => PFuel
              end
            else PSyntax
          end
        end
      else PSyntax
    end
  end.

(** The recursion budget for a text: two per code unit and two more. *)
Definition parse_budget (s : jsstring) : nat := 2 * List.length s + 2.

(** [JSON.parse(text)]: one value, surrounded by optional whitespace, and
    nothing else; anything else is a SyntaxError. *)
Definition JSON_parse (text : jsstring) : completion value :=
  match parse_value (parse_budget text) text with
  | POk v rest =>
    match skip_ws rest with
    | [] => Normal v
    | _ :: _ => Throw SyntaxError
    end
  | PSyntax => Throw SyntaxError
  | PFuel => Throw SyntaxError
  end.

(** ** JSON.stringify

    SerializeJSONProperty without replacer, indentation or [toJSON]:
    [None] stands for the [undefined] result.  A property whose value is
    [undefined] is left out of an object; in an array it is written null. *)

Fixpoint join_comma (parts : list jsstring) : jsstring :=
  match parts with
  | [] => []
  | [p] => p
  | p :: rest => p ++ c_comma :: join_comma rest
  end.

(** The texts of the members of an object, from each key and the text of its
    value; a member without a text (an [undefined] value) is left out. *)
Fixpoint member_texts (ps : list (jsstring * option jsstring)) : list jsstring :=
  match ps with
  | [] => []
  | (k, Some t) :: rest => (QuoteJSONString k ++ c_colon :: t) :: member_texts rest
  | (_, None) :: rest => member_texts rest
  end.

Definition element_text (t : option jsstring) : jsstring :=
  match t with
  | Some x => x
  | None => js "null"
  end.

Fixpoint SerializeJSONProperty (v : value) : option jsstring :=
  match v with
  | VUndefined => None
  | VNull => Some (js "null")
  | VBool true => Some (js "true")
  | VBool false => Some (js "false")
  | VNumber n => Some (Number_toString n)
  | VString s => Some (QuoteJSONString s)
  | VArray elems =>
    let parts := List.map (fun e => element_text (SerializeJSONProperty e)) elems in
    Some (c_lbracket :: join_comma parts ++ [c_rbracket])
  | VObject props =>
    let parts :=
      List.map (fun kv => (fst kv, SerializeJSONProperty (snd kv))) props in
    Some (c_lbrace :: join_comma (member_texts parts) ++ [c_rbrace])
  end.

Definition JSON_stringify (v : value) : option jsstring := SerializeJSONProperty v.

(** ** Reading values *)

(** Property read [v.k] on a value that is neither [null] nor [undefined].
    Only own properties of objects are modelled: none of the names this
    module reads (commit, baseCommit, headCommit, isBase, path and the field
    names of the parameter records) is a property of a standard prototype. *)
Definition Get (v : value) (k : jsstring) : value :=
  match v with
  | VObject props =>
    match obj_lookup k props with
    | Some x => x
    | None => VUndefined
    end
  | _ => VUndefined
  end.

(** A number is zero when its mantissa is, or when it is so small that
    binary64 rounds it to zero: at most 2^-1075. *)
Definition number_is_zero (n : jsnumber) : bool :=
  (num_mant n =? 0) ||
  ((num_exp10 n <? 0)%Z &&
   (num_mant n * 2 ^ 1075 <=? 10 ^ Z.to_N (- num_exp10 n))).

(** ToBoolean. *)
Definition ToBoolean (v : value) : bool :=
  match v with
  | VUndefined | VNull => false
  | VBool b => b
  | VNumber n => negb (number_is_zero n)
  | VString s => match s with [] => false | _ :: _ => true end
  | VArray _ | VObject _ => true
  end.

(** ** The host's URI value

    Modelled from the spec: the URI type belongs to the host editor, which
    supplies its scheme, path and query fields and an immutable [with]
    operation that replaces the fields named in a change and keeps the
    others.  The host's check that the result is a well-formed URI is not
    modelled. *)
Module Uri.

Record t := mk {
  scheme : jsstring;
  authority : jsstring;
  path : jsstring;
  query : jsstring;
  fragment : jsstring
}.

Record change := mkChange {
  new_scheme : option jsstring;
  new_authority : option jsstring;
  new_path : option jsstring;
  new_query : option jsstring;
  new_fragment : option jsstring
}.

Definition pick (old : jsstring) (new : option jsstring) : jsstring :=
  match new with
  | Some x => x
  | None => old
  end.

Definition with_ (u : t) (c : change) : t :=
  mk (pick (scheme u) (new_scheme c))
     (pick (authority u) (new_authority c))
     (pick (path u) (new_path c))
     (pick (query u) (new_query c))
     (pick (fragment u) (new_fragment c)).

End Uri.

(** ** Parameter records *)

Module ReviewUriParams.
Record t := mk {
  path : jsstring;
  ref : option jsstring;
  commit : option jsstring;
  base : bool;
  isOutdated : bool;
  rootPath : jsstring
}.
End ReviewUriParams.

(** Modelled from the spec: [GitChangeType] is declared in ./file, outside
    this unit; the spec calls it an enumerated classification of a file's diff
    status.  At run time a member of a TypeScript enum is a number or a
    string, which is all the codec relies on; numeric members are integers. *)
Inductive GitChangeType :=
| ChangeCode (code : Z)
| ChangeName (name : jsstring).

Module PRUriParams.
Record t := mk {
  baseCommit : jsstring;
  headCommit : jsstring;
  isBase : bool;
  fileName : jsstring;
  prNumber : Z;
  status : GitChangeType;
  remoteName : jsstring
}.
End PRUriParams.

Record GitUriOptions := mkGitUriOptions {
  replaceFileExtension : option bool;
  submoduleOf : option jsstring;
  base : bool
}.

(** Modelled from the spec: the pull-request model is declared in
    ../github/pullRequestModel, outside this unit; it exposes [number], an
    integer, and [githubRepository.remote.remoteName]. *)
Record Remote := mkRemote { remoteName : jsstring }.
Record GitHubRepository := mkGitHubRepository { remote : Remote }.
Record PullRequestModel := mkPullRequestModel {
  number : Z;
  githubRepository : GitHubRepository
}.

(** The run-time values of typed fields, as they sit in an object literal. *)
Definition of_string (s : jsstring) : value := VString s.
Definition of_optional_string (s : option jsstring) : value :=
  match s with
  | Some x => VString x
  | None => VUndefined
  end.
Definition of_integer (z : Z) : value := VNumber (number_of_Z z).




Definition of_GitChangeType (s : GitChangeType) : value :=
  match s with
  | ChangeCode z => of_integer z
  | ChangeName n => VString n
  end.

Definition ReviewUriParams_object (p : ReviewUriParams.t) : value :=
  VObject
    [ (js "path", of_string (ReviewUriParams.path p));
      (js "ref", of_optional_string (ReviewUriParams.ref p));
      (js "commit", of_optional_string (ReviewUriParams.commit p));
      (js "base", VBool (ReviewUriParams.base p));
      (js "isOutdated", VBool (ReviewUriParams.isOutdated p));
      (js "rootPath", of_string (ReviewUriParams.rootPath p)) ].

Definition PRUriParams_object (p : PRUriParams.t) : value :=
  VObject
    [ (js "baseCommit", of_string (PRUriParams.baseCommit p));
      (js "headCommit", of_string (PRUriParams.headCommit p));
      (js "isBase", VBool (PRUriParams.isBase p));
      (js "fileName", of_string (PRUriParams.fileName p));
      (js "prNumber", of_integer (PRUriParams.prNumber p));
      (js "status", of_GitChangeType (PRUriParams.status p));
      (js "remoteName", of_string (PRUriParams.remoteName p)) ].

(** ** Decoders *)

(** The decoders over an arbitrary [JSON.parse], so that what each decoder
    does with the parser's completion is stated apart from what the parser
    does. *)
Module Over.
Section Decoders.

Variable parse : jsstring -> completion value.

Definition fromReviewUri (query : jsstring) : completion value :=
  parse query.

Definition fromPRUri (uri : Uri.t) : completion value :=
  try_catch (parse (Uri.query uri)) (fun _ => Normal VUndefined).

Definition fromGitHubURI (uri : Uri.t) : completion value :=
  try_catch (parse (Uri.query uri)) (fun _ => Normal VUndefined).

Definition fromFileChangeNodeUri (uri : Uri.t) : completion value :=
  try_catch
    (match Uri.query uri with
     | _ :: _ => parse (Uri.query uri)
     | [] => Normal VUndefined
     end)
    (fun _ => Normal VUndefined).

End Decoders.
End Over.

Definition fromReviewUri : jsstring -> completion value :=
  Over.fromReviewUri JSON_parse.
Definition fromPRUri : Uri.t -> completion value :=
  Over.fromPRUri JSON_parse.
Definition fromGitHubURI : Uri.t -> completion value :=
  Over.fromGitHubURI JSON_parse.
Definition fromFileChangeNodeUri : Uri.t -> completion value :=
  Over.fromFileChangeNodeUri JSON_parse.

(** ** Encoders *)

Definition toReviewUri (uri : Uri.t) (filePath : option jsstring)
           (ref : option jsstring) (commit : jsstring) (isOutdated : bool)
           (options : GitUriOptions) (rootUri : Uri.t) : Uri.t :=
  let params :=
    ReviewUriParams.mk
      (match filePath with
       | Some fp => if ToBoolean (VString fp) then fp else Uri.path uri
       | None => Uri.path uri
       end)
      ref
      (Some commit)
      (base options)
      isOutdated
      (Uri.path rootUri) in
  let path := Uri.path uri in
  let path :=
    match replaceFileExtension options with
    | Some true => path ++ js ".git"
    | Some false | None => path
    end in
  Uri.with_ uri
    (Uri.mkChange (Some (js "review")) None (Some path)
                  (JSON_stringify (ReviewUriParams_object params)) None).


Definition toPRUri (uri : Uri.t) (pullRequestModel : PullRequestModel)
           (baseCommit headCommit fileName : jsstring) (base : bool)
           (status : GitChangeType) : Uri.t :=
  let params :=
    PRUriParams.mk baseCommit headCommit base fileName
                   (number pullRequestModel) status
                   (remoteName (remote (githubRepository pullRequestModel))) in
  let path := Uri.path uri in
  Uri.with_ uri
    (Uri.mkChange (Some (js "pr")) None (Some path)
                  (JSON_stringify (PRUriParams_object params)) None).

(** ** resolvePath

    The two path resolvers and the file-system path of a URI belong to the
    platform: [native_resolve] is [path.resolve], which follows the host's
    conventions, [posix_resolve] is [path.posix.resolve], and [fsPath] is the
    host's rendering of a URI as a local path. *)

Module Schemas.
Definition file : jsstring := js "file".
End Schemas.

Section ResolvePath.

Variable native_resolve : jsstring -> jsstring -> jsstring.
Variable posix_resolve : jsstring -> jsstring -> jsstring.
Variable fsPath : Uri.t -> jsstring.

Definition resolvePath (from : Uri.t) (to : jsstring) : jsstring :=
  if jsstring_eqb (Uri.scheme from) Schemas.file
  then native_resolve (fsPath from) to
  else posix_resolve (Uri.path from) to.

End ResolvePath.

(** ** asImageDataURI *)

Definition ImageMimetypes : list jsstring :=
  [ js "image/png"; js "image/gif"; js "image/jpeg"; js "image/webp";
    js "image/tiff"; js "image/bmp" ].

(** [Array.prototype.indexOf] on an array of strings: the first position
    holding the same string, or -1. *)
Fixpoint indexOf_from (l : list jsstring) (x : jsstring) (i : Z) : Z :=
  match l with
  | [] => (-1)%Z
  | y :: r => if jsstring_eqb y x then i else indexOf_from r x (i + 1)%Z
  end.

Definition indexOf (l : list jsstring) (x : jsstring) : Z := indexOf_from l x 0%Z.

(** A promise, by the state it settles in. *)
Inductive promise (A : Type) :=
| Fulfilled (a : A)
| Rejected (e : exn).
Arguments Fulfilled {A} a.
Arguments Rejected {A} e.

(** The destructuring [const { commit, baseCommit, headCommit, isBase, path } = v]:
    a TypeError on [null] and [undefined], property reads otherwise. *)
Record ImageQuery := mkImageQuery {
  q_commit : value;
  q_baseCommit : value;
  q_headCommit : value;
  q_isBase : value;
  q_path : value
}.

Definition destructure (v : value) : completion ImageQuery :=
  match v with
  | VUndefined | VNull => Throw TypeError
  | _ => Normal (mkImageQuery (Get v (js "commit")) (Get v (js "baseCommit"))
                              (Get v (js "headCommit")) (Get v (js "isBase"))
                              (Get v (js "path")))
  end.

(** The ref the object is looked up at: the commit of a review URI, else
    the base or the head commit as [isBase] says. *)
Definition image_ref (uri : Uri.t) (q : ImageQuery) : value :=
  if jsstring_eqb (Uri.scheme uri) (js "review") then q_commit q
  else if ToBoolean (q_isBase q) then q_baseCommit q
  else q_headCommit q.

Section ImageData.

(** Git objects and file contents are opaque to this module. *)
Variables GitObject Buffer : Type.

(** Modelled from the spec: the repository collaborator is declared in
    ../api/api, outside this unit, with [getObjectDetails(ref, path)] giving
    the object, [detectObjectType(object)] its MIME type and
    [buffer(ref, path)] its bytes.  Each of its calls is awaited at once, so a
    synchronous throw and a rejected promise reach the caller alike, as a
    throw at the [await]: the outcome of a call is a completion. *)
Record Repository := mkRepository {
  getObjectDetails : value -> jsstring -> completion GitObject;
  detectObjectType : GitObject -> completion jsstring;
  buffer : value -> jsstring -> completion Buffer
}.

Variable fsPath : Uri.t -> jsstring.

(** [path.dirname] and [path.basename] on strings; on any other argument
    both throw a TypeError. *)
Variable dirname : jsstring -> jsstring.
Variable basename : jsstring -> jsstring.

Definition path_call (f : jsstring -> jsstring) (arg : value) : completion jsstring :=
  match arg with
  | VString s => Normal (f s)
  | _ => Throw TypeError
  end.

(** [TemporaryState.write], declared in ./temporaryState, outside this
    unit: the call may throw, or return a promise of the URI of the file
    written.  Its result is returned by [asImageDataURI] without being
    awaited, so here the two ways of failing are kept apart. *)
Variable TemporaryState_write :
  jsstring -> jsstring -> Buffer -> completion (promise (option Uri.t)).

(** The body of the [try] block: a throw, or the value given to [return]. *)
Definition asImageDataURI_try (uri : Uri.t) (repository : Repository)
  : completion (promise (option Uri.t)) :=
  parsed <- JSON_parse (Uri.query uri) ;;
  q <- destructure parsed ;;
  let ref := image_ref uri q in
  object <- getObjectDetails repository ref (fsPath uri) ;;
  mimetype <- detectObjectType repository object ;;
  if jsstring_eqb mimetype (js "text/plain") then Normal (Fulfilled None)
  else if (indexOf ImageMimetypes mimetype >? -1)%Z then
    contents <- buffer repository ref (fsPath uri) ;;
    dir <- path_call dirname (q_path q) ;;
    name <- path_call basename (q_path q) ;;
    TemporaryState_write dir name contents
  else Normal (Fulfilled None).

(** The promise of the async function.  A throw inside [try] is caught and
    the function returns nothing; a returned promise settles the function's
    own promise, whichever way it settles. *)
Definition asImageDataURI (uri : Uri.t) (repository : Repository)
  : promise (option Uri.t) :=
  match asImageDataURI_try uri repository with
  | Normal p => p
  | Throw _ => Fulfilled None
  end.

End ImageData.

(** ** Notions used in the statements about the JSON text *)

(** A token ends where the input does, or before a separator: a comma, a
    closing brace or bracket, or whitespace. *)
Definition ends_token (rest : jsstring) : bool :=
  match rest with
  | [] => true
  | c :: _ => (c =? c_comma) || (c =? c_rbrace) || (c =? c_rbracket) || is_ws c
  end.

(** Digits stop where the input does or at a code unit that is no digit. *)
Definition stops_digits (rest : jsstring) : bool :=
  match rest with
  | [] => true
  | c :: _ => match digit_value c with Some _ => false | None => true end
  end.

Fixpoint uint_fold (u : Decimal.uint) (acc : N) : N :=
  match u with
  | Decimal.Nil => acc
  | Decimal.D0 l => uint_fold l (acc * 10 + 0)
  | Decimal.D1 l => uint_fold l (acc * 10 + 1)
  | Decimal.D2 l => uint_fold l (acc * 10 + 2)
  | Decimal.D3 l => uint_fold l (acc * 10 + 3)
  | Decimal.D4 l => uint_fold l (acc * 10 + 4)
  | Decimal.D5 l => uint_fold l (acc * 10 + 5)
  | Decimal.D6 l => uint_fold l (acc * 10 + 6)
  | Decimal.D7 l => uint_fold l (acc * 10 + 7)
  | Decimal.D8 l => uint_fold l (acc * 10 + 8)
  | Decimal.D9 l => uint_fold l (acc * 10 + 9)
  end.

Fixpoint uint_len (u : Decimal.uint) : Z :=
  match u with
  | Decimal.Nil => 0
  | Decimal.D0 l | Decimal.D1 l | Decimal.D2 l | Decimal.D3 l | Decimal.D4 l
  | Decimal.D5 l | Decimal.D6 l | Decimal.D7 l | Decimal.D8 l | Decimal.D9 l =>
    uint_len l + 1
  end%Z.

(** A number prints to a text that reads back as the same number unless it
    is a zero with a sign or an exponent. *)
Definition printable (n : jsnumber) : Prop :=
  num_mant n = 0 -> num_neg n = false /\ num_exp10 n = 0%Z.

(** The values with a one-token text. *)
Definition scalar (v : value) : Prop :=
  match v with
  | VNull | VBool _ | VString _ => True
  | VNumber n => printable n
  | VUndefined | VArray _ | VObject _ => False
  end.

(** A flat object: every property is a scalar or [undefined]. *)
Definition flat_props (props : list (jsstring * value)) : Prop :=
  Forall (fun kv => scalar (snd kv) \/ snd kv = VUndefined) props.

Definition is_undefined (v : value) : bool :=
  match v with
  | VUndefined => true
  | _ => false
  end.

(** The properties [JSON.stringify] writes. *)
Definition present (props : list (jsstring * value)) : list (jsstring * value) :=
  List.filter (fun kv => negb (is_undefined (snd kv))) props.

(** The object built by defining the properties in order. *)
Definition define_all (props acc : list (jsstring * value)) : list (jsstring * value) :=
  List.fold_left (fun a kv => obj_define (fst kv) (snd kv) a) props acc.

Definition scalar_text (v : value) : jsstring :=
  element_text (SerializeJSONProperty v).

Definition member_text (kv : jsstring * value) : jsstring :=
  QuoteJSONString (fst kv) ++ c_colon :: scalar_text (snd kv).

(** ** Reading a value at a record type

    A decoder's result is used at the type its signature declares, without a
    check at run time.  [ReviewUriParams_of_value] reads each field as a
    property and gives the record when every field has the declared type. *)

Definition as_string (v : value) : option jsstring :=
  match v with
  | VString s => Some s
  | _ => None
  end.

Definition as_optional_string (v : value) : option (option jsstring) :=
  match v with
  | VString s => Some (Some s)
  | VUndefined => Some None
  | _ => None
  end.

Definition as_boolean (v : value) : option bool :=
  match v with
  | VBool b => Some b
  | _ => None
  end.

Definition ReviewUriParams_of_value (v : value) : option ReviewUriParams.t :=
  match as_string (Get v (js "path")),
        as_optional_string (Get v (js "ref")),
        as_optional_string (Get v (js "commit")),
        as_boolean (Get v (js "base")),
        as_boolean (Get v (js "isOutdated")),
        as_string (Get v (js "rootPath")) with
  | Some p, Some r, Some c, Some b, Some o, Some root =>
    Some (ReviewUriParams.mk p r c b o root)
  | _, _, _, _, _, _ => None
  end.

(** ** Sample inputs *)

(** A JSON text written with an apostrophe for each double quote. *)
Definition json_text (s : string) : jsstring :=
  List.map (fun c => if c =? 39 then c_quote else c) (js s).

Definition sample_uri (path query : jsstring) : Uri.t :=
  Uri.mk (js "file") [] path query [].

(** A repository in which every call succeeds and the object is a PNG
    image, a temporary store whose write fails after the call has returned
    (the promise it returned is rejected), and one whose write fails during
    the call. *)
Definition png_repository : Repository unit unit :=
  mkRepository unit unit
    (fun _ _ => Normal tt)
    (fun _ => Normal (js "image/png"))
    (fun _ _ => Normal tt).

Definition write_error : exn := Thrown (VString (js "ENOSPC")).

Definition write_rejecting (dir name : jsstring) (contents : unit)
  : completion (promise (option Uri.t)) :=
  Normal (Rejected write_error).

Definition write_throwing (dir name : jsstring) (contents : unit)
  : completion (promise (option Uri.t)) :=
  Throw write_error.

Definition image_review_uri : Uri.t :=
  Uri.mk (js "review") [] (js "/img/logo.png")
         (json_text
            "{'path':'/img/logo.png','commit':'def456','base':false,'isOutdated':false,'rootPath':'/'}")
         [].

(** Stand-ins for the platform's path functions, used where a statement over
    all of them is applied to one: joining with a backslash, joining with a
    slash, and the URI's path as its file-system path. *)
Definition join_backslash (a b : jsstring) : jsstring := a ++ c_backslash :: b.
Definition join_slash (a b : jsstring) : jsstring := a ++ c_slash :: b.

(** ** The JSON grammar

    The texts of ECMA-404, stated on their own, apart from the parser: what
    it is for a query to be valid JSON. *)

Definition ws_char (c : unit16) : Prop := c = 9 \/ c = 10 \/ c = 13 \/ c = 32.
Definition digit_char (c : unit16) : Prop := 48 <= c <= 57.
Definition hex_char (c : unit16) : Prop :=
  48 <= c <= 57 \/ 65 <= c <= 70 \/ 97 <= c <= 102.
Definition escape_char (c : unit16) : Prop :=
  c = 34 \/ c = 92 \/ c = 47 \/ c = 98 \/ c = 102 \/ c = 110 \/ c = 114 \/ c = 116.

Definition ws_text (w : jsstring) : Prop := Forall ws_char w.
Definition digits_text (d : jsstring) : Prop := d <> [] /\ Forall digit_char d.

(** The characters between the quotes of a string literal. *)
Inductive string_chars : jsstring -> Prop :=
| chars_end : string_chars []
| chars_plain (c : unit16) (t : jsstring) :
    32 <= c -> c <> 34 -> c <> 92 -> string_chars t -> string_chars (c :: t)
| chars_escape (e : unit16) (t : jsstring) :
    escape_char e -> string_chars t -> string_chars (92 :: e :: t)
| chars_unicode (h1 h2 h3 h4 : unit16) (t : jsstring) :
    hex_char h1 -> hex_char h2 -> hex_char h3 -> hex_char h4 ->
    string_chars t -> string_chars (92 :: 117 :: h1 :: h2 :: h3 :: h4 :: t).

Inductive int_text : jsstring -> Prop :=
| int_zero : int_text [48]
| int_digits (c : unit16) (d : jsstring) :
    49 <= c <= 57 -> Forall digit_char d -> int_text (c :: d).

Inductive frac_text : jsstring -> Prop :=
| frac_none : frac_text []
| frac_some (d : jsstring) : digits_text d -> frac_text (46 :: d).

Inductive exp_text : jsstring -> Prop :=
| exp_none : exp_text []
| exp_some (e : unit16) (sg d : jsstring) :
    e = 101 \/ e = 69 -> sg = [] \/ sg = [43] \/ sg = [45] ->
    digits_text d -> exp_text (e :: sg ++ d).

Inductive number_text : jsstring -> Prop :=
| number_parts (m i f e : jsstring) :
    m = [] \/ m = [45] -> int_text i -> frac_text f -> exp_text e ->
    number_text (m ++ i ++ f ++ e).

Inductive value_text : jsstring -> Prop :=
| text_null : value_text (js "null")
| text_true : value_text (js "true")
| text_false : value_text (js "false")
| text_number (n : jsstring) : number_text n -> value_text n
| text_string (b : jsstring) : string_chars b -> value_text (34 :: b ++ [34])
| text_empty_array (w : jsstring) : ws_text w -> value_text (91 :: w ++ [93])
| text_array (es : jsstring) : elements_text es -> value_text (91 :: es ++ [93])
| text_empty_object (w : jsstring) : ws_text w -> value_text (123 :: w ++ [125])
| text_object (ms : jsstring) : members_text ms -> value_text (123 :: ms ++ [125])

with elements_text : jsstring -> Prop :=
| elements_last (w1 v w2 : jsstring) :
    ws_text w1 -> value_text v -> ws_text w2 -> elements_text (w1 ++ v ++ w2)
| elements_more (w1 v w2 es : jsstring) :
    ws_text w1 -> value_text v -> ws_text w2 -> elements_text es ->
    elements_text (w1 ++ v ++ w2 ++ 44 :: es)

with members_text : jsstring -> Prop :=
| members_last (w1 k w2 w3 v w4 : jsstring) :
    ws_text w1 -> string_chars k -> ws_text w2 ->
    ws_text w3 -> value_text v -> ws_text w4 ->
    members_text (w1 ++ 34 :: k ++ 34 :: w2 ++ 58 :: w3 ++ v ++ w4)
| members_more (w1 k w2 w3 v w4 ms : jsstring) :
    ws_text w1 -> string_chars k -> ws_text w2 ->
    ws_text w3 -> value_text v -> ws_text w4 -> members_text ms ->
    members_text (w1 ++ 34 :: k ++ 34 :: w2 ++ 58 :: w3 ++ v ++ w4 ++ 44 :: ms).

Scheme value_text_mut := Minimality for value_text Sort Prop
  with elements_text_mut := Minimality for elements_text Sort Prop
  with members_text_mut := Minimality for members_text Sort Prop.

Combined Scheme json_text_mutind
  from value_text_mut, elements_text_mut, members_text_mut.

(** A JSON text is one value with optional whitespace around it. *)
Definition JSON_text (s : jsstring) : Prop :=
  exists w1 v w2, s = w1 ++ v ++ w2 /\ ws_text w1 /\ value_text v /\ ws_text w2.

(** The input does not begin with the code unit [k]. *)
Definition head_not (k : unit16) (r : jsstring) : Prop :=
  match r with
  | [] => True
  | c :: _ => c <> k
  end.

(** ** More sample inputs *)

(** Repositories whose object is plain text, a PDF document, and one whose
    object lookup fails. *)
Definition text_repository : Repository unit unit :=
  mkRepository unit unit
    (fun _ _ => Normal tt)
    (fun _ => Normal (js "text/plain"))
    (fun _ _ => Normal tt).

Definition pdf_repository : Repository unit unit :=
  mkRepository unit unit
    (fun _ _ => Normal tt)
    (fun _ => Normal (js "application/pdf"))
    (fun _ _ => Normal tt).

Definition lookup_error : exn := Thrown (VString (js "ENOENT")).

Definition failing_repository : Repository unit unit :=
  mkRepository unit unit
    (fun _ _ => Throw lookup_error)
    (fun _ => Normal (js "image/png"))
    (fun _ _ => Normal tt).

(** A temporary store whose write succeeds with the URI of the file. *)
Definition written_uri (dir name : jsstring) : Uri.t :=
  Uri.mk (js "file") [] (dir ++ c_slash :: name) [] [].

Definition write_fulfilling (dir name : jsstring) (contents : unit)
  : completion (promise (option Uri.t)) :=
  Normal (Fulfilled (Some (written_uri dir name))).

Definition sample_model : PullRequestModel :=
  mkPullRequestModel 42 (mkGitHubRepository (mkRemote (js "origin"))).

(** [asImageDataURI] over the stand-ins: no file-system mapping, and the
    path functions leaving their argument as it is. *)
Definition sample_asImageDataURI
           (write : jsstring -> jsstring -> unit -> completion (promise (option Uri.t)))
  : Uri.t -> Repository unit unit -> promise (option Uri.t) :=
  asImageDataURI unit unit Uri.path (fun p => p) (fun p => p) write.

Lemma jsstring_eqb_spec (a b : jsstring) : reflect (a = b) (jsstring_eqb a b).
Proof.
  revert b; induction a as [|x a IH]; intros [|y b]; simpl;
    try (constructor; congruence).
  destruct (N.eqb_spec x y) as [->|Hxy]; simpl.
  - destruct (IH b) as [->|Hab]; constructor; congruence.
  - constructor; congruence.
Qed.

Lemma jsstring_eqb_refl (a : jsstring) : jsstring_eqb a a = true.
Proof. destruct (jsstring_eqb_spec a a); congruence. Qed.

Lemma jsstring_eqb_eq (a b : jsstring) : jsstring_eqb a b = true <-> a = b.
Proof. destruct (jsstring_eqb_spec a b); split; congruence. Qed.

Lemma jsstring_eqb_neq (a b : jsstring) : jsstring_eqb a b = false <-> a <> b.
Proof. destruct (jsstring_eqb_spec a b); split; congruence. Qed.

Lemma hex_value_digit (n : N) : n < 16 -> hex_value (hex_digit n) = Some n.
Proof.
  intros Hn. unfold hex_value, hex_digit.
  destruct (N.ltb_spec n 10).
  - replace ((48 <=? 48 + n) && (48 + n <=? 57)) with true.
    + f_equal; lia.
    + symmetry; apply andb_true_iff; split; apply N.leb_le; lia.
  - replace ((48 <=? 87 + n) && (87 + n <=? 57)) with false.
    + replace ((97 <=? 87 + n) && (87 + n <=? 102)) with true.
      * f_equal; lia.
      * symmetry; apply andb_true_iff; split; apply N.leb_le; lia.
    + symmetry; apply andb_false_iff; right; apply N.leb_gt; lia.
Qed.

Lemma hex4_value_hex4 (c : unit16) :
  c < 65536 ->
  match hex4 c with
  | [h1; h2; h3; h4] => hex4_value h1 h2 h3 h4 = Some c
  | _ => False
  end.
Proof.
  intros Hc. unfold hex4, hex4_value.
  rewrite !hex_value_digit by (apply N.mod_lt; discriminate).
  f_equal.
  pose proof (N.div_mod c 16 ltac:(discriminate)).
  pose proof (N.div_mod (c / 16) 16 ltac:(discriminate)).
  pose proof (N.div_mod (c / 16 / 16) 16 ltac:(discriminate)).
  pose proof (N.div_mod (c / 16 / 16 / 16) 16 ltac:(discriminate)).
  assert (c / 16 / 16 / 16 / 16 = 0).
  { rewrite !N.Div0.div_div. apply N.div_small. simpl. exact Hc. }
  lia.
Qed.

Lemma parse_string_body_plain (c : unit16) (tail : jsstring) :
  32 <= c -> c <> c_quote -> c <> c_backslash ->
  parse_string_body (c :: tail) = cons_fst c (parse_string_body tail).
Proof.
  intros H32 Hq Hb. simpl.
  destruct (N.eqb_spec c c_quote); [contradiction|].
  destruct (N.eqb_spec c c_backslash); [contradiction|].
  destruct (N.ltb_spec c 32); [lia|reflexivity].
Qed.

Lemma parse_string_body_escape (c : unit16) (tail : jsstring) :
  c < 65536 ->
  parse_string_body (unicode_escape c ++ tail) = cons_fst c (parse_string_body tail).
Proof.
  intros Hc. pose proof (hex4_value_hex4 c Hc) as Hx.
  unfold unicode_escape. destruct (hex4 c) as [|h1 [|h2 [|h3 [|h4 [|? ?]]]]]; try contradiction.
  simpl. rewrite Hx. reflexivity.
Qed.

Lemma parse_string_body_quote_unit (c : unit16) (tail : jsstring) :
  parse_string_body (quote_unit c ++ tail) = cons_fst c (parse_string_body tail).
Proof.
  unfold quote_unit.
  repeat match goal with
         | |- context [if ?x =? ?k then _ else _] =>
           destruct (N.eqb_spec x k) as [->|?]; [reflexivity|]
         end.
  destruct ((c <? 32) || is_high_surrogate c || is_low_surrogate c) eqn:E.
  - apply parse_string_body_escape.
    unfold is_high_surrogate, is_low_surrogate in E.
    rewrite !orb_true_iff, !andb_true_iff, N.ltb_lt, !N.leb_le in E. lia.
  - rewrite !orb_false_iff in E. destruct E as [[E _] _].
    apply N.ltb_ge in E. apply parse_string_body_plain; assumption.
Qed.

Lemma parse_string_body_pair (c d : unit16) (tail : jsstring) :
  is_high_surrogate c = true -> is_low_surrogate d = true ->
  parse_string_body (c :: d :: tail) = cons_fst c (cons_fst d (parse_string_body tail)).
Proof.
  unfold is_high_surrogate, is_low_surrogate.
  rewrite !andb_true_iff, !N.leb_le. intros [? ?] [? ?].
  rewrite parse_string_body_plain by (unfold c_quote, c_backslash; lia).
  rewrite parse_string_body_plain by (unfold c_quote, c_backslash; lia).
  reflexivity.
Qed.

Lemma quote_units_cons2 (c d : unit16) (r : jsstring) :
  quote_units (c :: d :: r) =
  if is_high_surrogate c && is_low_surrogate d
  then c :: d :: quote_units r
  else quote_unit c ++ quote_units (d :: r).
Proof. reflexivity. Qed.

(** Reading back what [QuoteJSONString] wrote gives the string itself and
    consumes exactly the literal. *)
Lemma parse_string_body_quote_units (s rest : jsstring) :
  parse_string_body (quote_units s ++ c_quote :: rest) = Some (s, rest).
Proof.
  remember (List.length s) as n eqn:Hn.
  revert s Hn. induction n as [n IH] using lt_wf_ind. intros s Hn.
  destruct s as [|c [|d r]].
  - reflexivity.
  - simpl quote_units. rewrite parse_string_body_quote_unit. reflexivity.
  - rewrite quote_units_cons2.
    destruct (is_high_surrogate c && is_low_surrogate d) eqn:E.
    + apply andb_true_iff in E. destruct E as [Ec Ed].
      change ((c :: d :: quote_units r) ++ c_quote :: rest)
        with (c :: d :: (quote_units r ++ c_quote :: rest)).
      rewrite parse_string_body_pair by assumption.
      rewrite (IH (List.length r)) by (simpl in Hn; lia || reflexivity). reflexivity.
    + rewrite <- app_assoc, parse_string_body_quote_unit.
      rewrite (IH (List.length (d :: r))) by (simpl in *; lia || reflexivity). reflexivity.
Qed.

(** ** Reading back the digits of a number *)

Lemma uint_len_nonneg (u : Decimal.uint) : (0 <= uint_len u)%Z.
Proof. induction u; simpl; lia. Qed.

Lemma ends_token_not_digit (c : unit16) (rest : jsstring) :
  ends_token (c :: rest) = true -> digit_value c = None.
Proof.
  unfold ends_token, is_ws, digit_value, c_comma, c_rbrace, c_rbracket.
  rewrite !orb_true_iff, !N.eqb_eq. intros H.
  destruct ((48 <=? c) && (c <=? 57)) eqn:E; [|reflexivity].
  apply andb_true_iff in E. rewrite !N.leb_le in E. lia.
Qed.

Lemma ends_token_stops_digits (rest : jsstring) :
  ends_token rest = true -> stops_digits rest = true.
Proof.
  destruct rest as [|c r]; [reflexivity|]. intros H.
  unfold stops_digits. rewrite (ends_token_not_digit _ _ H). reflexivity.
Qed.

Lemma parse_digits_end (rest : jsstring) (acc : N) (cnt : Z) :
  stops_digits rest = true -> parse_digits rest acc cnt = (acc, cnt, rest).
Proof.
  destruct rest as [|c r]; [reflexivity|]. unfold stops_digits. intros H.
  simpl. destruct (digit_value c); [discriminate|reflexivity].
Qed.

Lemma parse_digits_units (u : Decimal.uint) (rest : jsstring) :
  stops_digits rest = true ->
  forall acc cnt,
    parse_digits (units_of_uint u ++ rest) acc cnt =
    (uint_fold u acc, (cnt + uint_len u)%Z, rest).
Proof.
  intros Hrest. induction u; intros acc cnt;
    try (cbn [units_of_uint app parse_digits uint_fold uint_len];
         change (digit_value 48) with (Some 0); change (digit_value 49) with (Some 1);
         change (digit_value 50) with (Some 2); change (digit_value 51) with (Some 3);
         change (digit_value 52) with (Some 4); change (digit_value 53) with (Some 5);
         change (digit_value 54) with (Some 6); change (digit_value 55) with (Some 7);
         change (digit_value 56) with (Some 8); change (digit_value 57) with (Some 9);
         cbv iota beta; rewrite IHu; f_equal; f_equal; lia).
  cbn [units_of_uint app uint_fold uint_len].
  rewrite parse_digits_end by assumption. f_equal. f_equal. lia.
Qed.

Lemma Pos_of_uint_acc_fold (l : Decimal.uint) (p : positive) :
  N.pos (Pos.of_uint_acc l p) = uint_fold l (N.pos p).
Proof.
  revert p. induction l; intros p; cbn [Pos.of_uint_acc uint_fold];
    try reflexivity; rewrite IHl; f_equal; lia.
Qed.

Lemma N_of_uint_fold (u : Decimal.uint) : N.of_uint u = uint_fold u 0.
Proof.
  unfold N.of_uint.
  induction u; cbn [Pos.of_uint uint_fold]; try reflexivity; try exact IHu;
    rewrite Pos_of_uint_acc_fold; reflexivity.
Qed.

Lemma nzhead_not_D0 (d l : Decimal.uint) : Decimal.nzhead d <> Decimal.D0 l.
Proof. induction d; cbn [Decimal.nzhead]; try discriminate. exact IHd. Qed.

(** The decimal text of a positive number does not begin with a zero. *)
Lemma Pos_to_uint_head (p : positive) (l : Decimal.uint) :
  Pos.to_uint p <> Decimal.D0 l.
Proof.
  intros H.
  pose proof (DecimalPos.Unsigned.of_to p) as Hof.
  pose proof (DecimalPos.Unsigned.to_of (Pos.to_uint p)) as Hto.
  rewrite Hof in Hto. cbn [N.to_uint] in Hto. rewrite H in Hto.
  unfold Decimal.unorm in Hto. cbn [Decimal.nzhead] in Hto.
  destruct (Decimal.nzhead l) eqn:E; try discriminate.
  - injection Hto as ->. rewrite H in Hof. discriminate.
  - exact (nzhead_not_D0 _ _ E).
Qed.

Lemma parse_int_part_digits (n : N) (rest : jsstring) :
  stops_digits rest = true ->
  parse_int_part (decimal_digits n ++ rest) = Some (n, rest).
Proof.
  intros Hrest. unfold decimal_digits.
  destruct n as [|p]; [reflexivity|].
  pose proof (DecimalN.Unsigned.of_to (N.pos p)) as Hof.
  rewrite N_of_uint_fold in Hof.
  cbn [N.to_uint] in *.
  pose proof (Pos_to_uint_head p) as Hhd.
  pose proof (DecimalPos.Unsigned.to_uint_nonnil p) as Hnil.
  destruct (Pos.to_uint p) as [|l|l|l|l|l|l|l|l|l|l];
    [ contradiction | exfalso; exact (Hhd l eq_refl) | .. ];
    cbn [units_of_uint app uint_fold] in *;
    unfold parse_int_part;
    match goal with
    | |- context [if ?c =? c_zero then _ else _] =>
      change (c =? c_zero) with false; cbv iota
    end;
    match goal with
    | |- context [digit_value ?c] =>
      let d := eval vm_compute in (digit_value c) in
      change (digit_value c) with d; cbv iota
    end;
    rewrite parse_digits_units by assumption; cbv iota beta;
    rewrite <- Hof; reflexivity.
Qed.

Lemma uint_len_pos (u : Decimal.uint) : u <> Decimal.Nil -> (0 < uint_len u)%Z.
Proof.
  destruct u; intros H; try contradiction; cbn [uint_len];
    match goal with |- (0 < uint_len ?l + 1)%Z => pose proof (uint_len_nonneg l) end; lia.
Qed.

Lemma N_to_uint_nonnil (n : N) : N.to_uint n <> Decimal.Nil.
Proof.
  destruct n; [discriminate|]. apply DecimalPos.Unsigned.to_uint_nonnil.
Qed.

(** The digits of a number begin with a digit. *)
Lemma decimal_digits_head (n : N) :
  exists c r, decimal_digits n = c :: r /\ 48 <= c <= 57.
Proof.
  unfold decimal_digits. pose proof (N_to_uint_nonnil n) as H.
  destruct (N.to_uint n); try contradiction; cbn [units_of_uint];
    eexists; eexists; (split; [reflexivity|lia]).
Qed.

Lemma parse_digits_decimal (n : N) (rest : jsstring) :
  stops_digits rest = true ->
  exists cnt, (0 < cnt)%Z /\ parse_digits (decimal_digits n ++ rest) 0 0 = (n, cnt, rest).
Proof.
  intros Hrest. unfold decimal_digits.
  exists (uint_len (N.to_uint n)). split.
  - apply uint_len_pos, N_to_uint_nonnil.
  - rewrite parse_digits_units by assumption.
    rewrite <- N_of_uint_fold, DecimalN.Unsigned.of_to. reflexivity.
Qed.

Lemma printable_of_Z (z : Z) : printable (number_of_Z z).
Proof.
  unfold printable, number_of_Z. cbn. intros H. split; [|reflexivity].
  apply Z.ltb_ge. lia.
Qed.

Lemma parse_frac_part_none (m : N) (s : jsstring) :
  match s with [] => True | c :: _ => c <> c_dot end ->
  parse_frac_part m s = Some (m, 0%Z, s).
Proof.
  destruct s as [|c r]; [reflexivity|]. intros H. unfold parse_frac_part.
  destruct (N.eqb_spec c c_dot); [contradiction|reflexivity].
Qed.

Lemma parse_exp_part_none (s : jsstring) :
  match s with [] => True | c :: _ => c <> 101 /\ c <> 69 end ->
  parse_exp_part s = Some (0%Z, s).
Proof.
  destruct s as [|c r]; [reflexivity|]. intros [H1 H2]. unfold parse_exp_part.
  destruct (N.eqb_spec c 101); [contradiction|].
  destruct (N.eqb_spec c 69); [contradiction|reflexivity].
Qed.

Lemma ends_token_cases (rest : jsstring) :
  ends_token rest = true ->
  match rest with
  | [] => True
  | c :: _ => c = 44 \/ c = 125 \/ c = 93 \/ c = 9 \/ c = 10 \/ c = 13 \/ c = 32
  end.
Proof.
  destruct rest as [|c r]; [trivial|].
  unfold ends_token, is_ws, c_comma, c_rbrace, c_rbracket.
  rewrite !orb_true_iff, !N.eqb_eq. tauto.
Qed.

Lemma parse_exp_part_text (e : Z) (rest : jsstring) :
  e <> 0%Z -> stops_digits rest = true ->
  parse_exp_part
    (101 :: (if (e <? 0)%Z then [c_minus] else []) ++ decimal_digits (Z.abs_N e) ++ rest)
  = Some (e, rest).
Proof.
  intros He Hrest.
  destruct (parse_digits_decimal (Z.abs_N e) rest Hrest) as (cnt & Hcnt & Hp).
  unfold parse_exp_part. change ((101 =? 101) || (101 =? 69)) with true. cbv iota.
  destruct (Z.ltb_spec e 0).
  - cbn [app]. change (c_minus =? c_minus) with true. cbv iota.
    rewrite Hp. destruct (Z.eqb_spec cnt 0); [lia|]. f_equal. f_equal. lia.
  - cbn [app].
    destruct (decimal_digits_head (Z.abs_N e)) as (c & r & Hd & Hc).
    rewrite Hd in *. cbn [app] in *.
    destruct (N.eqb_spec c c_minus) as [E|_]; [unfold c_minus in E; lia|].
    destruct (N.eqb_spec c c_plus) as [E|_]; [unfold c_plus in E; lia|].
    rewrite Hp. destruct (Z.eqb_spec cnt 0); [lia|]. f_equal. f_equal. lia.
Qed.

Lemma parse_number_toString (n : jsnumber) (rest : jsstring) :
  printable n -> ends_token rest = true ->
  parse_number (Number_toString n ++ rest) = Some (n, rest).
Proof.
  intros Hp Hrest. destruct n as [neg m e]. unfold printable in Hp. cbn in Hp.
  pose proof (ends_token_cases rest Hrest) as Hc.
  pose proof (ends_token_stops_digits rest Hrest) as Hs.
  unfold Number_toString. cbn [num_mant num_neg num_exp10].
  destruct (N.eqb_spec m 0) as [->|Hm].
  - destruct (Hp eq_refl) as [-> ->].
    unfold parse_number. cbn [app]. change (c_zero =? c_minus) with false. cbv iota.
    unfold parse_int_part. change (c_zero =? c_zero) with true. cbv iota.
    rewrite parse_frac_part_none by (destruct rest; [trivial|unfold c_dot; lia]).
    rewrite parse_exp_part_none by (destruct rest; [trivial|lia]).
    reflexivity.
  - assert (Hfrac : forall t,
              match t with [] => True | c :: _ => c <> c_dot end ->
              forall e', parse_exp_part t = Some (e', rest) ->
              stops_digits t = true ->
              parse_number ((if neg then [c_minus] else []) ++ decimal_digits m ++ t)
              = Some (mkNumber neg m e', rest)).
    { intros t Ht e' He' Hst. unfold parse_number.
      destruct neg; cbn [app].
      - change (c_minus =? c_minus) with true. cbv iota.
        rewrite parse_int_part_digits by assumption.
        rewrite parse_frac_part_none by assumption. rewrite He'. reflexivity.
      - destruct (decimal_digits_head m) as (c & r & Hd & Hcr).
        rewrite Hd. cbn [app].
        destruct (N.eqb_spec c c_minus) as [E|_]; [unfold c_minus in E; lia|].
        change (c :: r ++ t) with ((c :: r) ++ t). rewrite <- Hd.
        rewrite parse_int_part_digits by assumption.
        rewrite parse_frac_part_none by assumption. rewrite He'. reflexivity. }
    rewrite <- !app_assoc.
    destruct (Z.eqb_spec e 0) as [->|He].
    + cbn [app]. apply Hfrac.
      * destruct rest; [trivial|unfold c_dot; lia].
      * apply parse_exp_part_none. destruct rest; [trivial|lia].
      * assumption.
    + rewrite <- app_comm_cons, <- app_assoc. apply Hfrac.
      * unfold c_dot; lia.
      * apply parse_exp_part_text; assumption.
      * reflexivity.
Qed.

(** ** Reading back one-token texts *)

Lemma parse_value_S (f : nat) (s : jsstring) :
  parse_value (S f) s =
  match skip_ws s with
  | [] => PSyntax
  | c :: r =>
    if c =? c_lbrace then
      match skip_ws r with
      | [] => PSyntax
      | d :: r' =>
        if d =? c_rbrace then POk (VObject []) r' else parse_members f (d :: r') []
      end
    else if c =? c_lbracket then
      match skip_ws r with
      | [] => PSyntax
      | d :: r' =>
        if d =? c_rbracket then POk (VArray []) r' else parse_elements f (d :: r') []
      end
    else if c =? c_quote then
      match parse_string_body r with
      | Some (str, r') => POk (VString str) r'
      | None => PSyntax
      end
    else if c =? 116 then
      match strip_prefix (js "rue") r with
      | Some r' => POk (VBool true) r'
      | None => PSyntax
      end
    else if c =? 102 then
      match strip_prefix (js "alse") r with
      | Some r' => POk (VBool false) r'
      | None => PSyntax
      end
    else if c =? 110 then
      match strip_prefix (js "ull") r with
      | Some r' => POk VNull r'
      | None => PSyntax
      end
    else
      match parse_number (c :: r) with
      | Some (n, r') => POk (VNumber n) r'
      | None => PSyntax
      end
  end.
Proof. reflexivity. Qed.

Lemma parse_elements_S (f : nat) (s : jsstring) (acc : list value) :
  parse_elements (S f) s acc =
  match parse_value f s with
  | POk v r =>
    match skip_ws r with
    | [] => PSyntax
    | d :: r' =>
      if d =? c_comma then parse_elements f r' (acc ++ [v])
      else if d =? c_rbracket then POk (VArray (acc ++ [v])) r'
      else PSyntax
    end
  | PSyntax => PSyntax
  | PFuel => PFuel
  end.
Proof. reflexivity. Qed.

Lemma parse_members_S (f : nat) (s : jsstring) (acc : list (jsstring * value)) :
  parse_members (S f) s acc =
  match s with
  | [] => PSyntax
  | c :: r =>
    if c =? c_quote then
      match parse_string_body r with
      | None => PSyntax
      | Some (k, r1) =>
        match skip_ws r1 with
        | [] => PSyntax
        | d :: r2 =>
          if d =? c_colon then
            match parse_value f r2 with
            | POk v r3 =>
              match skip_ws r3 with
              | [] => PSyntax
              | e :: r4 =>
                if e =? c_comma then parse_members f (skip_ws r4) (obj_define k v acc)
                else if e =? c_rbrace then POk (VObject (obj_define k v acc)) r4
                else PSyntax
              end
            | PSyntax => PSyntax
            | PFuel => PFuel
            end
          else PSyntax
        end
      end
    else PSyntax
  end.
Proof. reflexivity. Qed.

Lemma skip_ws_head (c : unit16) (r : jsstring) :
  is_ws c = false -> skip_ws (c :: r) = c :: r.
Proof. intros H. simpl. rewrite H. reflexivity. Qed.

Lemma parse_value_string (f : nat) (s rest : jsstring) :
  parse_value (S f) (QuoteJSONString s ++ rest) = POk (VString s) rest.
Proof.
  rewrite parse_value_S. unfold QuoteJSONString.
  rewrite <- app_comm_cons, <- app_assoc. cbn [app].
  rewrite skip_ws_head by reflexivity.
  change (c_quote =? c_lbrace) with false. change (c_quote =? c_lbracket) with false.
  change (c_quote =? c_quote) with true. cbv iota.
  rewrite parse_string_body_quote_units. reflexivity.
Qed.

Lemma Number_toString_head (n : jsnumber) :
  exists c r, Number_toString n = c :: r /\ (c = 45 \/ 48 <= c <= 57).
Proof.
  unfold Number_toString. destruct (num_mant n =? 0).
  - exists c_zero, []. split; [reflexivity|unfold c_zero; lia].
  - destruct (num_neg n).
    + eexists; eexists; split; [reflexivity|left; reflexivity].
    + destruct (decimal_digits_head (num_mant n)) as (c & r & Hd & Hc).
      rewrite Hd. eexists; eexists; split; [reflexivity|right; exact Hc].
Qed.

Lemma parse_value_number (f : nat) (n : jsnumber) (rest : jsstring) :
  printable n -> ends_token rest = true ->
  parse_value (S f) (Number_toString n ++ rest) = POk (VNumber n) rest.
Proof.
  intros Hp Hrest. pose proof (parse_number_toString n rest Hp Hrest) as Hn.
  destruct (Number_toString_head n) as (c & r & Ht & Hc).
  rewrite Ht in *. cbn [app] in *.
  rewrite parse_value_S.
  assert (Hws : is_ws c = false).
  { unfold is_ws. rewrite !orb_false_iff, !N.eqb_neq. lia. }
  rewrite skip_ws_head by assumption.
  unfold c_lbrace, c_lbracket, c_quote.
  repeat match goal with
         | |- context [if c =? ?k then _ else _] =>
           destruct (N.eqb_spec c k) as [E|_]; [exfalso; lia|]
         end.
  rewrite Hn. reflexivity.
Qed.

(** A scalar is read back from its text at any positive budget. *)
Lemma parse_value_scalar (f : nat) (v : value) (t rest : jsstring) :
  scalar v -> SerializeJSONProperty v = Some t -> ends_token rest = true ->
  parse_value (S f) (t ++ rest) = POk v rest.
Proof.
  intros Hv Ht Hrest.
  destruct v as [| |b|n|s|l|l]; cbn in Hv; try contradiction.
  - injection Ht as <-. reflexivity.
  - destruct b; injection Ht as <-; reflexivity.
  - injection Ht as <-. apply parse_value_number; assumption.
  - injection Ht as <-. apply parse_value_string.
Qed.

(** ** Reading back flat objects *)

Lemma QuoteJSONString_app (k rest : jsstring) :
  QuoteJSONString k ++ rest = c_quote :: quote_units k ++ c_quote :: rest.
Proof.
  unfold QuoteJSONString. rewrite <- app_comm_cons, <- app_assoc. reflexivity.
Qed.

Lemma join_comma_cons2 (x y : jsstring) (l : list jsstring) :
  join_comma (x :: y :: l) = x ++ c_comma :: join_comma (y :: l).
Proof. reflexivity. Qed.

Lemma members_head (ps : list (jsstring * value)) (rest : jsstring) :
  ps <> [] ->
  exists tail, join_comma (List.map member_text ps) ++ rest = c_quote :: tail.
Proof.
  destruct ps as [|p [|q ps]]; intros H; [contradiction| |].
  - cbn [List.map join_comma]. unfold member_text.
    rewrite <- app_assoc, QuoteJSONString_app. eexists; reflexivity.
  - cbn [List.map]. rewrite join_comma_cons2. unfold member_text at 1.
    rewrite <- !app_assoc, QuoteJSONString_app. eexists; reflexivity.
Qed.

Lemma parse_member (f : nat) (k : jsstring) (v : value) (rest : jsstring)
      (acc : list (jsstring * value)) :
  scalar v -> ends_token rest = true ->
  parse_members (S (S f)) (member_text (k, v) ++ rest) acc =
  match skip_ws rest with
  | [] => PSyntax
  | e :: r4 =>
    if e =? c_comma then parse_members (S f) (skip_ws r4) (obj_define k v acc)
    else if e =? c_rbrace then POk (VObject (obj_define k v acc)) r4
    else PSyntax
  end.
Proof.
  intros Hv Hrest. unfold member_text. cbn [fst snd].
  rewrite <- app_assoc, QuoteJSONString_app, parse_members_S.
  change (c_quote =? c_quote) with true. cbv iota.
  rewrite parse_string_body_quote_units. cbn [app].
  rewrite skip_ws_head by reflexivity.
  change (c_colon =? c_colon) with true. cbv iota.
  assert (Ht : SerializeJSONProperty v = Some (scalar_text v)).
  { unfold scalar_text. destruct v as [| |[]| | | |]; cbn in Hv; try contradiction; reflexivity. }
  rewrite (parse_value_scalar f v _ rest Hv Ht Hrest). reflexivity.
Qed.

Lemma parse_members_flat (ps : list (jsstring * value)) :
  Forall (fun kv => scalar (snd kv)) ps -> ps <> [] ->
  forall (f : nat) (rest : jsstring) (acc : list (jsstring * value)),
    (List.length ps < f)%nat ->
    parse_members f (join_comma (List.map member_text ps) ++ c_rbrace :: rest) acc
    = POk (VObject (define_all ps acc)) rest.
Proof.
  induction ps as [|[k v] ps IH]; intros Hall Hne f rest acc Hf; [contradiction|].
  inversion Hall as [|? ? Hv Hps]; subst. cbn [snd] in Hv.
  destruct f as [|[|f]]; cbn [List.length] in Hf; try lia.
  destruct ps as [|q ps].
  - cbn [List.map join_comma].
    rewrite parse_member by (assumption || reflexivity).
    rewrite skip_ws_head by reflexivity.
    change (c_rbrace =? c_comma) with false. change (c_rbrace =? c_rbrace) with true.
    reflexivity.
  - cbn [List.map]. rewrite join_comma_cons2, <- app_assoc, <- app_comm_cons.
    rewrite parse_member by (assumption || reflexivity).
    rewrite skip_ws_head by reflexivity.
    change (c_comma =? c_comma) with true. cbv iota.
    change (member_text q :: List.map member_text ps) with (List.map member_text (q :: ps)).
    destruct (members_head (q :: ps) (c_rbrace :: rest)) as [tail Htail]; [discriminate|].
    rewrite Htail, skip_ws_head by reflexivity. rewrite <- Htail.
    rewrite IH; [reflexivity|assumption|discriminate|cbn [List.length] in *; lia].
Qed.

Lemma member_texts_present (props : list (jsstring * value)) :
  flat_props props ->
  member_texts (List.map (fun kv => (fst kv, SerializeJSONProperty (snd kv))) props)
  = List.map member_text (present props)
  /\ Forall (fun kv => scalar (snd kv)) (present props).
Proof.
  induction 1 as [|[k v] props Hv _ IH]; [split; [reflexivity|constructor]|].
  destruct IH as [IH1 IH2]. cbn [snd] in Hv.
  unfold present in *. cbn [List.map List.filter fst snd member_texts].
  destruct Hv as [Hv| ->].
  - assert (Ht : SerializeJSONProperty v = Some (scalar_text v) /\ is_undefined v = false).
    { unfold scalar_text. destruct v as [| |[]| | | |]; cbn in Hv; try contradiction;
        split; reflexivity. }
    destruct Ht as [-> ->]. cbn [negb List.map]. rewrite IH1. split.
    + reflexivity.
    + constructor; assumption.
  - cbn. split; assumption.
Qed.

Lemma SerializeJSONProperty_object (props : list (jsstring * value)) :
  SerializeJSONProperty (VObject props) =
  Some (c_lbrace ::
        join_comma (member_texts
          (List.map (fun kv => (fst kv, SerializeJSONProperty (snd kv))) props))
        ++ [c_rbrace]).
Proof. reflexivity. Qed.

(** [JSON.parse] of the text [JSON.stringify] gives for a flat object is the
    object with the properties that were written, defined in order. *)
Lemma JSON_parse_stringify_flat (props : list (jsstring * value)) :
  flat_props props ->
  exists t, JSON_stringify (VObject props) = Some t /\
            JSON_parse t = Normal (VObject (define_all (present props) [])).
Proof.
  intros Hflat. destruct (member_texts_present props Hflat) as [Htexts Hall].
  exists (c_lbrace :: join_comma (List.map member_text (present props)) ++ [c_rbrace]).
  split.
  { unfold JSON_stringify. rewrite SerializeJSONProperty_object, Htexts. reflexivity. }
  unfold JSON_parse, parse_budget.
  remember (present props) as ps eqn:Hps. clear Hps Htexts Hflat.
  destruct ps as [|p ps].
  - reflexivity.
  - set (text := c_lbrace :: join_comma (List.map member_text (p :: ps)) ++ [c_rbrace]).
    assert (Hlen : (List.length (p :: ps) < List.length text)%nat).
    { unfold text. clear. generalize (p :: ps) as l.
      induction l as [|x [|y l] IH].
      - cbn. lia.
      - cbn [List.map join_comma List.length]. rewrite length_app.
        unfold member_text. rewrite length_app. cbn. lia.
      - cbn [List.map]. rewrite join_comma_cons2.
        cbn [List.length] in *. rewrite <- app_assoc, length_app.
        cbn [List.length app]. cbn [List.map] in IH. unfold member_text at 1.
        rewrite length_app. cbn [List.length]. lia. }
    remember (2 * List.length text + 2)%nat as fuel eqn:Hfuel.
    destruct fuel as [|fuel]; [lia|].
    unfold text. rewrite parse_value_S.
    rewrite skip_ws_head by reflexivity.
    change (c_lbrace =? c_lbrace) with true. cbv iota.
    destruct (members_head (p :: ps) [c_rbrace]) as [tail Htail]; [discriminate|].
    rewrite Htail, skip_ws_head by reflexivity.
    change (c_quote =? c_rbrace) with false. cbv iota. rewrite <- Htail.
    rewrite parse_members_flat; [reflexivity|assumption|discriminate|lia].
Qed.

(** ** The recursion budget is never used up *)

Lemma skip_ws_length (s : jsstring) : (List.length (skip_ws s) <= List.length s)%nat.
Proof.
  induction s as [|c r IH]; [reflexivity|]. simpl.
  destruct (is_ws c); simpl; lia.
Qed.

Lemma skip_ws_cons_length (s : jsstring) (c : unit16) (r : jsstring) :
  skip_ws s = c :: r -> (List.length r < List.length s)%nat.
Proof.
  intros H. pose proof (skip_ws_length s) as L. rewrite H in L. simpl in L. lia.
Qed.

Lemma cons_fst_length {B} (a : unit16) (o : option (jsstring * B)) l b :
  cons_fst a o = Some (l, b) -> exists l', o = Some (l', b).
Proof.
  destruct o as [[l' b']|]; simpl; intros H; [|discriminate].
  injection H as _ <-. eexists; reflexivity.
Qed.

Lemma parse_string_body_length (s : jsstring) :
  forall k r, parse_string_body s = Some (k, r) -> (List.length r < List.length s)%nat.
Proof.
  remember (List.length s) as n eqn:Hn. revert s Hn.
  induction n as [n IH] using lt_wf_ind. intros s Hn k r H.
  destruct s as [|c s]; [discriminate|]. cbn [parse_string_body] in H.
  destruct (c =? c_quote).
  { injection H as _ <-. simpl in *. lia. }
  destruct (c =? c_backslash).
  - destruct s as [|e s]; [discriminate|].
    destruct (e =? 117).
    + destruct s as [|h1 [|h2 [|h3 [|h4 s]]]]; try discriminate.
      destruct (hex4_value h1 h2 h3 h4); [|discriminate].
      apply cons_fst_length in H. destruct H as [l' H].
      apply (IH (List.length s)) in H; simpl in *; lia.
    + destruct (unescape e); [|discriminate].
      apply cons_fst_length in H. destruct H as [l' H].
      apply (IH (List.length s)) in H; simpl in *; lia.
  - destruct (c <? 32); [discriminate|].
    apply cons_fst_length in H. destruct H as [l' H].
    apply (IH (List.length s)) in H; simpl in *; lia.
Qed.

Lemma strip_prefix_length (p s r : jsstring) :
  strip_prefix p s = Some r -> (List.length r <= List.length s)%nat.
Proof.
  revert s; induction p as [|a p IH]; intros s H; simpl in H.
  - injection H as <-. lia.
  - destruct s as [|b s]; [discriminate|]. destruct (a =? b); [|discriminate].
    apply IH in H. simpl. lia.
Qed.

Lemma parse_digits_length (s : jsstring) :
  forall acc cnt m c r,
    parse_digits s acc cnt = (m, c, r) -> (List.length r <= List.length s)%nat.
Proof.
  induction s as [|x s IH]; intros acc cnt m c r H; simpl in H.
  - injection H as _ _ <-. lia.
  - destruct (digit_value x).
    + apply IH in H. simpl. lia.
    + injection H as _ _ <-. lia.
Qed.

Lemma parse_int_part_length (s : jsstring) (m : N) (r : jsstring) :
  parse_int_part s = Some (m, r) -> (List.length r < List.length s)%nat.
Proof.
  unfold parse_int_part. destruct s as [|c s]; [discriminate|].
  destruct (c =? c_zero).
  - intros H. injection H as _ <-. simpl. lia.
  - destruct (digit_value c); [|discriminate].
    destruct (parse_digits s n 0) as [[m' c'] r'] eqn:E. intros H.
    injection H as _ <-. apply parse_digits_length in E. simpl. lia.
Qed.

Lemma parse_frac_part_length (m : N) (s : jsstring) m' e r :
  parse_frac_part m s = Some (m', e, r) -> (List.length r <= List.length s)%nat.
Proof.
  unfold parse_frac_part. destruct s as [|c s].
  - intros H. injection H as _ _ <-. lia.
  - destruct (c =? c_dot).
    + destruct (parse_digits s m 0) as [[m1 c1] r1] eqn:E.
      destruct (c1 =? 0)%Z; [discriminate|]. intros H. injection H as _ _ <-.
      apply parse_digits_length in E. simpl. lia.
    + intros H. injection H as _ _ <-. lia.
Qed.

Lemma parse_exp_part_length (s : jsstring) e r :
  parse_exp_part s = Some (e, r) -> (List.length r <= List.length s)%nat.
Proof.
  unfold parse_exp_part. destruct s as [|c s].
  - intros H. injection H as _ <-. lia.
  - destruct ((c =? 101) || (c =? 69)).
    + match goal with
      | |- context [let '(sgn, r1) := ?X in _] => destruct X as [sgn r1] eqn:Es
      end.
      assert (Hr1 : (List.length r1 <= List.length s)%nat).
      { destruct s as [|d s']; [injection Es as _ <-; lia|].
        destruct (d =? c_minus); [injection Es as _ <-; simpl; lia|].
        destruct (d =? c_plus); injection Es as _ <-; simpl; lia. }
      destruct (parse_digits r1 0 0) as [[e1 c1] r2] eqn:E.
      destruct (c1 =? 0)%Z; [discriminate|]. intros H. injection H as _ <-.
      apply parse_digits_length in E. simpl. lia.
    + intros H. injection H as _ <-. lia.
Qed.

Lemma parse_number_length (s : jsstring) (n : jsnumber) (r : jsstring) :
  parse_number s = Some (n, r) -> (List.length r < List.length s)%nat.
Proof.
  unfold parse_number.
  match goal with
  | |- context [let '(neg, s1) := ?X in _] => destruct X as [neg s1] eqn:Es
  end.
  assert (Hs1 : (List.length s1 <= List.length s)%nat).
  { destruct s as [|c s']; [injection Es as _ <-; lia|].
    destruct (c =? c_minus); injection Es as _ <-; simpl; lia. }
  destruct (parse_int_part s1) as [[m s2]|] eqn:E1; [|discriminate].
  destruct (parse_frac_part m s2) as [[[m' e1] s3]|] eqn:E2; [|discriminate].
  destruct (parse_exp_part s3) as [[e2 s4]|] eqn:E3; [|discriminate].
  intros H. injection H as _ <-.
  apply parse_int_part_length in E1. apply parse_frac_part_length in E2.
  apply parse_exp_part_length in E3. lia.
Qed.

(** Every parsing function that succeeds has consumed input. *)
Lemma parse_progress (f : nat) :
  (forall s v r, parse_value f s = POk v r -> (List.length r < List.length s)%nat) /\
  (forall s acc v r, parse_elements f s acc = POk v r -> (List.length r < List.length s)%nat) /\
  (forall s acc v r, parse_members f s acc = POk v r -> (List.length r < List.length s)%nat).
Proof.
  induction f as [|f (IHv & IHe & IHm)]; [repeat split; discriminate|].
  split; [|split].
  - intros s v r. rewrite parse_value_S.
    destruct (skip_ws s) as [|c t] eqn:Es; [discriminate|].
    apply skip_ws_cons_length in Es.
    destruct (c =? c_lbrace).
    { destruct (skip_ws t) as [|d t'] eqn:Et; [discriminate|].
      pose proof (skip_ws_length t) as Lt. rewrite Et in Lt.
      destruct (d =? c_rbrace).
      - intros H; injection H as _ <-. simpl in *. lia.
      - intros H. apply IHm in H. lia. }
    destruct (c =? c_lbracket).
    { destruct (skip_ws t) as [|d t'] eqn:Et; [discriminate|].
      pose proof (skip_ws_length t) as Lt. rewrite Et in Lt.
      destruct (d =? c_rbracket).
      - intros H; injection H as _ <-. simpl in *. lia.
      - intros H. apply IHe in H. lia. }
    destruct (c =? c_quote).
    { destruct (parse_string_body t) as [[k t']|] eqn:Ek; [|discriminate].
      apply parse_string_body_length in Ek. intros H; injection H as _ <-. lia. }
    destruct (c =? 116).
    { destruct (strip_prefix (js "rue") t) as [t'|] eqn:Ep; [|discriminate].
      apply strip_prefix_length in Ep. intros H; injection H as _ <-. lia. }
    destruct (c =? 102).
    { destruct (strip_prefix (js "alse") t) as [t'|] eqn:Ep; [|discriminate].
      apply strip_prefix_length in Ep. intros H; injection H as _ <-. lia. }
    destruct (c =? 110).
    { destruct (strip_prefix (js "ull") t) as [t'|] eqn:Ep; [|discriminate].
      apply strip_prefix_length in Ep. intros H; injection H as _ <-. lia. }
    destruct (parse_number (c :: t)) as [[n t']|] eqn:En; [|discriminate].
    apply parse_number_length in En. intros H; injection H as _ <-. simpl in *. lia.
  - intros s acc v r. rewrite parse_elements_S.
    destruct (parse_value f s) as [v1 r1| |] eqn:Ev; try discriminate.
    apply IHv in Ev.
    destruct (skip_ws r1) as [|d t] eqn:Et; [discriminate|].
    apply skip_ws_cons_length in Et.
    destruct (d =? c_comma).
    + intros H. apply IHe in H. lia.
    + destruct (d =? c_rbracket); [|discriminate].
      intros H; injection H as _ <-. lia.
  - intros s acc v r. rewrite parse_members_S.
    destruct s as [|c t]; [discriminate|].
    destruct (c =? c_quote); [|discriminate].
    destruct (parse_string_body t) as [[k r1]|] eqn:Ek; [|discriminate].
    apply parse_string_body_length in Ek.
    destruct (skip_ws r1) as [|d r2] eqn:E1; [discriminate|].
    apply skip_ws_cons_length in E1.
    destruct (d =? c_colon); [|discriminate].
    destruct (parse_value f r2) as [v1 r3| |] eqn:Ev; try discriminate.
    apply IHv in Ev.
    destruct (skip_ws r3) as [|e r4] eqn:E3; [discriminate|].
    apply skip_ws_cons_length in E3.
    destruct (e =? c_comma).
    + intros H. apply IHm in H. pose proof (skip_ws_length r4). simpl. lia.
    + destruct (e =? c_rbrace); [|discriminate].
      intros H; injection H as _ <-. simpl. lia.
Qed.

(** With two units of budget per code unit no parsing function stops for
    want of budget. *)
Lemma parse_budget_enough (f : nat) :
  (forall s, (2 * List.length s + 1 <= f)%nat -> parse_value f s <> PFuel) /\
  (forall s acc, (2 * List.length s + 2 <= f)%nat -> parse_elements f s acc <> PFuel) /\
  (forall s acc, (2 * List.length s + 1 <= f)%nat -> parse_members f s acc <> PFuel).
Proof.
  induction f as [|f (IHv & IHe & IHm)]; [repeat split; intros; lia|].
  destruct (parse_progress f) as (Pv & Pe & Pm).
  split; [|split].
  - intros s Hf. rewrite parse_value_S.
    destruct (skip_ws s) as [|c t] eqn:Es; [discriminate|].
    apply skip_ws_cons_length in Es.
    destruct (c =? c_lbrace).
    { destruct (skip_ws t) as [|d t'] eqn:Et; [discriminate|].
      pose proof (skip_ws_length t) as Lt. rewrite Et in Lt.
      destruct (d =? c_rbrace); [discriminate|]. apply IHm. lia. }
    destruct (c =? c_lbracket).
    { destruct (skip_ws t) as [|d t'] eqn:Et; [discriminate|].
      pose proof (skip_ws_length t) as Lt. rewrite Et in Lt.
      destruct (d =? c_rbracket); [discriminate|]. apply IHe. lia. }
    destruct (c =? c_quote).
    { destruct (parse_string_body t) as [[k t']|]; discriminate. }
    destruct (c =? 116).
    { destruct (strip_prefix (js "rue") t); discriminate. }
    destruct (c =? 102).
    { destruct (strip_prefix (js "alse") t); discriminate. }
    destruct (c =? 110).
    { destruct (strip_prefix (js "ull") t); discriminate. }
    destruct (parse_number (c :: t)) as [[n t']|]; discriminate.
  - intros s acc Hf. rewrite parse_elements_S.
    destruct (parse_value f s) as [v1 r1| |] eqn:Ev; [|discriminate|].
    + apply Pv in Ev.
      destruct (skip_ws r1) as [|d t] eqn:Et; [discriminate|].
      apply skip_ws_cons_length in Et.
      destruct (d =? c_comma); [apply IHe; lia|].
      destruct (d =? c_rbracket); discriminate.
    + exfalso. revert Ev. apply IHv. lia.
  - intros s acc Hf. rewrite parse_members_S.
    destruct s as [|c t]; [discriminate|].
    destruct (c =? c_quote); [|discriminate].
    destruct (parse_string_body t) as [[k r1]|] eqn:Ek; [|discriminate].
    apply parse_string_body_length in Ek.
    destruct (skip_ws r1) as [|d r2] eqn:E1; [discriminate|].
    apply skip_ws_cons_length in E1.
    destruct (d =? c_colon); [|discriminate].
    cbn [List.length] in Hf.
    destruct (parse_value f r2) as [v1 r3| |] eqn:Ev; [|discriminate|].
    + apply Pv in Ev.
      destruct (skip_ws r3) as [|e r4] eqn:E3; [discriminate|].
      apply skip_ws_cons_length in E3.
      destruct (e =? c_comma).
      * apply IHm. pose proof (skip_ws_length r4). lia.
      * destruct (e =? c_rbrace); discriminate.
    + exfalso. revert Ev. apply IHv. lia.
Qed.

(** [JSON_parse] never reports a syntax error for want of budget. *)
Lemma JSON_parse_budget (text : jsstring) :
  parse_value (parse_budget text) text <> PFuel.
Proof.
  apply (proj1 (parse_budget_enough (parse_budget text))).
  unfold parse_budget. lia.
Qed.

(** No parsing function yields [undefined]. *)
Lemma parse_defined (f : nat) :
  (forall s r, parse_value f s <> POk VUndefined r) /\
  (forall s acc r, parse_elements f s acc <> POk VUndefined r) /\
  (forall s acc r, parse_members f s acc <> POk VUndefined r).
Proof.
  induction f as [|f (IHv & IHe & IHm)]; [repeat split; discriminate|].
  split; [|split].
  - intros s r. rewrite parse_value_S.
    destruct (skip_ws s) as [|c t]; [discriminate|].
    destruct (c =? c_lbrace).
    { destruct (skip_ws t) as [|d t']; [discriminate|].
      destruct (d =? c_rbrace); [discriminate|apply IHm]. }
    destruct (c =? c_lbracket).
    { destruct (skip_ws t) as [|d t']; [discriminate|].
      destruct (d =? c_rbracket); [discriminate|apply IHe]. }
    destruct (c =? c_quote).
    { destruct (parse_string_body t) as [[k t']|]; discriminate. }
    destruct (c =? 116).
    { destruct (strip_prefix (js "rue") t); discriminate. }
    destruct (c =? 102).
    { destruct (strip_prefix (js "alse") t); discriminate. }
    destruct (c =? 110).
    { destruct (strip_prefix (js "ull") t); discriminate. }
    destruct (parse_number (c :: t)) as [[n t']|]; discriminate.
  - intros s acc r. rewrite parse_elements_S.
    destruct (parse_value f s) as [v1 r1| |]; try discriminate.
    destruct (skip_ws r1) as [|d t]; [discriminate|].
    destruct (d =? c_comma); [apply IHe|].
    destruct (d =? c_rbracket); discriminate.
  - intros s acc r. rewrite parse_members_S.
    destruct s as [|c t]; [discriminate|].
    destruct (c =? c_quote); [|discriminate].
    destruct (parse_string_body t) as [[k r1]|]; [|discriminate].
    destruct (skip_ws r1) as [|d r2]; [discriminate|].
    destruct (d =? c_colon); [|discriminate].
    destruct (parse_value f r2) as [v1 r3| |]; try discriminate.
    destruct (skip_ws r3) as [|e r4]; [discriminate|].
    destruct (e =? c_comma); [apply IHm|].
    destruct (e =? c_rbrace); discriminate.
Qed.

Lemma JSON_parse_defined (text : jsstring) : JSON_parse text <> Normal VUndefined.
Proof.
  unfold JSON_parse.
  destruct (parse_value (parse_budget text) text) as [v r| |] eqn:E; try discriminate.
  destruct (skip_ws r); [|discriminate].
  intros H. injection H as ->.
  exact (proj1 (parse_defined _) _ _ E).
Qed.

(** ** The review codec *)

Lemma ReviewUriParams_flat (p : ReviewUriParams.t) :
  flat_props
    [ (js "path", of_string (ReviewUriParams.path p));
      (js "ref", of_optional_string (ReviewUriParams.ref p));
      (js "commit", of_optional_string (ReviewUriParams.commit p));
      (js "base", VBool (ReviewUriParams.base p));
      (js "isOutdated", VBool (ReviewUriParams.isOutdated p));
      (js "rootPath", of_string (ReviewUriParams.rootPath p)) ].
Proof.
  destruct p as [path [ref|] [commit|] b o root]; cbn;
    repeat (constructor; [cbn; auto|]); constructor.
Qed.

(** The query text of a params record reads back as that record. *)
Lemma ReviewUriParams_roundtrip (p : ReviewUriParams.t) :
  exists t, JSON_stringify (ReviewUriParams_object p) = Some t /\
  exists v, fromReviewUri t = Normal v /\ ReviewUriParams_of_value v = Some p.
Proof.
  destruct (JSON_parse_stringify_flat _ (ReviewUriParams_flat p)) as (t & Ht & Hp).
  exists t. split; [exact Ht|]. eexists. split; [exact Hp|].
  destruct p as [path [ref|] [commit|] b o root]; reflexivity.
Qed.

(** The query of a URI built by [toReviewUri] reads back as the params record
    the URI was built from. *)
Lemma toReviewUri_roundtrip_params :
  (forall p : ReviewUriParams.t,
     exists t, JSON_stringify (ReviewUriParams_object p) = Some t /\
     exists v, fromReviewUri t = Normal v /\ ReviewUriParams_of_value v = Some p)
  /\
  (forall uri filePath ref commit isOutdated options rootUri,
     exists v,
       fromReviewUri
         (Uri.query (toReviewUri uri filePath ref commit isOutdated options rootUri))
       = Normal v /\
       ReviewUriParams_of_value v =
       Some (ReviewUriParams.mk
               (match filePath with
                | Some (c :: fp) => c :: fp
                | Some [] | None => Uri.path uri
                end)
               ref (Some commit) (base options) isOutdated (Uri.path rootUri))).
Proof.
  split; [exact ReviewUriParams_roundtrip|].
  intros uri filePath ref commit isOutdated options rootUri.
  unfold toReviewUri.
  match goal with
  | |- context [JSON_stringify (ReviewUriParams_object ?p)] =>
    destruct (ReviewUriParams_roundtrip p) as (t & Ht & v & Hv & Hp); rewrite Ht
  end.
  exists v. split; [exact Hv|]. rewrite Hp.
  destruct filePath as [[|c fp]|]; reflexivity.
Qed.

(** C1: decoding the query of a URI built by [toReviewUri] gives back the
    params record the URI was built from, field by field; and the same holds
    for the query text of every params record, whatever its path, ref,
    commit, flags and root path. *)
Theorem toReviewUri_fromReviewUri_roundtrip :
  (forall p : ReviewUriParams.t,
     exists t, JSON_stringify (ReviewUriParams_object p) = Some t /\
     exists v, fromReviewUri t = Normal v /\ ReviewUriParams_of_value v = Some p)
  /\
  (forall uri filePath ref commit isOutdated options rootUri,
     exists v,
       fromReviewUri
         (Uri.query (toReviewUri uri filePath ref commit isOutdated options rootUri))
       = Normal v /\
       ReviewUriParams_of_value v =
       Some (ReviewUriParams.mk
               (match filePath with
                | Some (c :: fp) => c :: fp
                | Some [] | None => Uri.path uri
                end)
               ref (Some commit) (base options) isOutdated (Uri.path rootUri))).
Proof. exact toReviewUri_roundtrip_params. Qed.

(** C8: the end-to-end scenario of the spec.  The URI built from path
    /a/b.txt, ref abc123, commit def456, base set, not outdated and root
    /root has scheme review, the same path and the stated JSON text as its
    query, and decoding that query gives the params object again. *)
Theorem toReviewUri_end_to_end :
  forall scheme authority query fragment rscheme rauthority rquery rfragment,
    let uri := Uri.mk scheme authority (js "/a/b.txt") query fragment in
    let rootUri := Uri.mk rscheme rauthority (js "/root") rquery rfragment in
    let params :=
      ReviewUriParams.mk (js "/a/b.txt") (Some (js "abc123")) (Some (js "def456"))
                         true false (js "/root") in
    let r := toReviewUri uri None (Some (js "abc123")) (js "def456") false
                         (mkGitUriOptions None None true) rootUri in
    Uri.scheme r = js "review" /\
    Uri.path r = js "/a/b.txt" /\
    Uri.query r =
    json_text
      "{'path':'/a/b.txt','ref':'abc123','commit':'def456','base':true,'isOutdated':false,'rootPath':'/root'}" /\
    fromReviewUri (Uri.query r) = Normal (ReviewUriParams_object params) /\
    ReviewUriParams_of_value (ReviewUriParams_object params) = Some params.
Proof.
  intros. repeat split; vm_compute; reflexivity.
Qed.

(** C6: [toReviewUri] with [replaceFileExtension] set gives the input path
    followed by one .git, whatever the path ends in; with the option unset or
    false it gives the input path; [toPRUri], which takes no such option,
    always gives the input path. *)
Theorem replaceFileExtension_path :
  forall uri filePath ref commit isOutdated options rootUri,
    (replaceFileExtension options = Some true ->
     Uri.path (toReviewUri uri filePath ref commit isOutdated options rootUri)
     = Uri.path uri ++ js ".git") /\
    (replaceFileExtension options <> Some true ->
     Uri.path (toReviewUri uri filePath ref commit isOutdated options rootUri)
     = Uri.path uri) /\
    (forall model baseCommit headCommit fileName base status,
       Uri.path (toPRUri uri model baseCommit headCommit fileName base status)
       = Uri.path uri).
Proof.
  intros uri filePath ref commit isOutdated options rootUri.
  unfold toReviewUri, toPRUri. cbn [Uri.with_ Uri.path Uri.new_path Uri.pick].
  repeat split.
  - intros ->. reflexivity.
  - destruct (replaceFileExtension options) as [[|]|]; congruence.
Qed.

Lemma replaceFileExtension_path_witness :
  Uri.path (toReviewUri (sample_uri (js "/a/b.git") []) None None (js "c") false
                        (mkGitUriOptions (Some true) None false) (sample_uri [] []))
  = js "/a/b.git.git" /\
  Uri.path (toReviewUri (sample_uri (js "/a/b.txt") []) None None (js "c") false
                        (mkGitUriOptions None None false) (sample_uri [] []))
  = js "/a/b.txt".
Proof.
  split.
  - exact (proj1 (replaceFileExtension_path (sample_uri (js "/a/b.git") []) None None
                    (js "c") false (mkGitUriOptions (Some true) None false)
                    (sample_uri [] [])) eq_refl).
  - refine (proj1 (proj2 (replaceFileExtension_path (sample_uri (js "/a/b.txt") []) None None
                    (js "c") false (mkGitUriOptions None None false)
                    (sample_uri [] []))) _).
    discriminate.
Defined.

(** ** The pull-request codec *)

Lemma PRUriParams_flat (p : PRUriParams.t) :
  flat_props
    [ (js "baseCommit", of_string (PRUriParams.baseCommit p));
      (js "headCommit", of_string (PRUriParams.headCommit p));
      (js "isBase", VBool (PRUriParams.isBase p));
      (js "fileName", of_string (PRUriParams.fileName p));
      (js "prNumber", of_integer (PRUriParams.prNumber p));
      (js "status", of_GitChangeType (PRUriParams.status p));
      (js "remoteName", of_string (PRUriParams.remoteName p)) ].
Proof.
  destruct p as [bc hc ib fn n [z|name] rn]; cbn;
    repeat (constructor; [cbn; auto using printable_of_Z|]); constructor.
Qed.

(** The query text of a pull-request params record reads back as the object
    it was written from. *)
Lemma PRUriParams_roundtrip (p : PRUriParams.t) :
  exists t, JSON_stringify (PRUriParams_object p) = Some t /\
            JSON_parse t = Normal (PRUriParams_object p).
Proof.
  destruct (JSON_parse_stringify_flat _ (PRUriParams_flat p)) as (t & Ht & Hp).
  exists t. split; [exact Ht|]. rewrite Hp.
  destruct p as [bc hc ib fn n [z|name] rn]; reflexivity.
Qed.

(** C7: [toPRUri] gives a URI of scheme pr with the input URI's path (and
    authority and fragment), whose query decodes to an object carrying the
    model's number as prNumber, the remote's name as remoteName, and the
    baseCommit, headCommit, isBase, fileName and status that were passed. *)
Theorem toPRUri_frame :
  forall uri model baseCommit headCommit fileName base status,
    let r := toPRUri uri model baseCommit headCommit fileName base status in
    Uri.scheme r = js "pr" /\
    Uri.path r = Uri.path uri /\
    Uri.authority r = Uri.authority uri /\
    Uri.fragment r = Uri.fragment uri /\
    exists v,
      fromPRUri r = Normal v /\
      Get v (js "prNumber") = of_integer (number model) /\
      Get v (js "remoteName") = VString (remoteName (remote (githubRepository model))) /\
      Get v (js "baseCommit") = VString baseCommit /\
      Get v (js "headCommit") = VString headCommit /\
      Get v (js "isBase") = VBool base /\
      Get v (js "fileName") = VString fileName /\
      Get v (js "status") = of_GitChangeType status.
Proof.
  intros uri model baseCommit headCommit fileName base status r.
  repeat (split; [reflexivity|]).
  unfold r, toPRUri, fromPRUri, Over.fromPRUri.
  match goal with
  | |- context [JSON_stringify (PRUriParams_object ?p)] =>
    destruct (PRUriParams_roundtrip p) as (t & Ht & Hp); rewrite Ht
  end.
  cbn [Uri.with_ Uri.query Uri.new_query Uri.pick]. rewrite Hp.
  eexists. split; [reflexivity|]. repeat split.
Qed.

Lemma ReviewUriParams_of_value_path (v : value) (p : ReviewUriParams.t) :
  ReviewUriParams_of_value v = Some p ->
  Get v (js "path") = VString (ReviewUriParams.path p).
Proof.
  unfold ReviewUriParams_of_value.
  destruct (Get v (js "path")) as [| | | |s| |]; cbn [as_string]; try discriminate.
  destruct (as_optional_string _); [|discriminate].
  destruct (as_optional_string _); [|discriminate].
  destruct (as_boolean _); [|discriminate].
  destruct (as_boolean _); [|discriminate].
  destruct (as_string _); [|discriminate].
  intros H. injection H as <-. reflexivity.
Qed.

(** C10, as stated, fails twice.  With [replaceFileExtension] set, the file
    path /a/b.git differs from the input path /a/b, yet the produced URI's
    path and the path field of its query are the same text.  And an empty
    file path, though provided, is not what the query carries: the input
    URI's path is. *)
Lemma toReviewUri_filePath_counterexample :
  (js "/a/b.git" <> js "/a/b" /\
   exists v,
     fromReviewUri
       (Uri.query (toReviewUri (sample_uri (js "/a/b") []) (Some (js "/a/b.git")) None
                               (js "c") false (mkGitUriOptions (Some true) None false)
                               (sample_uri [] [])))
     = Normal v /\
     Get v (js "path") =
     VString (Uri.path (toReviewUri (sample_uri (js "/a/b") []) (Some (js "/a/b.git")) None
                                    (js "c") false (mkGitUriOptions (Some true) None false)
                                    (sample_uri [] []))))
  /\
  (exists v,
     fromReviewUri
       (Uri.query (toReviewUri (sample_uri (js "/a/b") []) (Some []) None
                               (js "c") false (mkGitUriOptions None None false)
                               (sample_uri [] [])))
     = Normal v /\
     Get v (js "path") = VString (js "/a/b") /\
     VString (js "/a/b") <> VString []).
Proof.
  split; [split; [discriminate|]|].
  - eexists. split; [vm_compute; reflexivity|reflexivity].
  - eexists. split; [vm_compute; reflexivity|]. split; [reflexivity|discriminate].
Qed.

(** C10, amended: when a file path is provided and is not empty, the path
    field of the query is that file path, never with .git added; the URI's
    own path is the input URI's path, with .git appended when
    [replaceFileExtension] is set; so the two differ exactly when the file
    path differs from that produced path.  An empty file path is treated as
    an absent one: the query then carries the input URI's path. *)
Theorem toReviewUri_filePath_in_query :
  forall uri filePath ref commit isOutdated options rootUri,
    let r := toReviewUri uri filePath ref commit isOutdated options rootUri in
    exists v,
      fromReviewUri (Uri.query r) = Normal v /\
      Uri.path r =
      (match replaceFileExtension options with
       | Some true => Uri.path uri ++ js ".git"
       | Some false | None => Uri.path uri
       end) /\
      (forall fp,
         filePath = Some fp -> fp <> [] ->
         Get v (js "path") = VString fp /\
         (fp <> Uri.path r <-> Get v (js "path") <> VString (Uri.path r))) /\
      (filePath = Some [] \/ filePath = None ->
       Get v (js "path") = VString (Uri.path uri)).
Proof.
  intros uri filePath ref commit isOutdated options rootUri r.
  destruct (proj2 toReviewUri_roundtrip_params uri filePath ref commit isOutdated options rootUri)
    as (v & Hv & Hp).
  apply ReviewUriParams_of_value_path in Hp. cbn [ReviewUriParams.path] in Hp.
  exists v. split; [exact Hv|]. split; [reflexivity|]. split.
  - intros fp -> Hfp. destruct fp as [|c fp]; [contradiction|].
    split; [exact Hp|]. rewrite Hp. split; congruence.
  - intros [->| ->]; exact Hp.
Qed.

Lemma toReviewUri_filePath_in_query_witness :
  (exists v,
     fromReviewUri
       (Uri.query (toReviewUri (sample_uri (js "/a/b.txt") []) (Some (js "src/b.txt")) None
                               (js "c") false (mkGitUriOptions (Some true) None false)
                               (sample_uri [] [])))
     = Normal v /\
     Get v (js "path") = VString (js "src/b.txt") /\
     Uri.path (toReviewUri (sample_uri (js "/a/b.txt") []) (Some (js "src/b.txt")) None
                           (js "c") false (mkGitUriOptions (Some true) None false)
                           (sample_uri [] []))
     = js "/a/b.txt" ++ js ".git" /\
     (js "src/b.txt" <>
      Uri.path (toReviewUri (sample_uri (js "/a/b.txt") []) (Some (js "src/b.txt")) None
                            (js "c") false (mkGitUriOptions (Some true) None false)
                            (sample_uri [] []))
      <-> Get v (js "path") <>
          VString
            (Uri.path (toReviewUri (sample_uri (js "/a/b.txt") []) (Some (js "src/b.txt")) None
                                   (js "c") false (mkGitUriOptions (Some true) None false)
                                   (sample_uri [] []))))) /\
  (exists v,
     fromReviewUri
       (Uri.query (toReviewUri (sample_uri (js "/a/b.txt") []) (Some []) None
                               (js "c") false (mkGitUriOptions (Some true) None false)
                               (sample_uri [] [])))
     = Normal v /\
     Get v (js "path") = VString (js "/a/b.txt")).
Proof.
  split.
  - destruct (toReviewUri_filePath_in_query
                (sample_uri (js "/a/b.txt") []) (Some (js "src/b.txt")) None
                (js "c") false (mkGitUriOptions (Some true) None false) (sample_uri [] []))
      as (v & Hv & Hpath & Hfp & _).
    assert (Hne : js "src/b.txt" <> []) by discriminate.
    destruct (Hfp (js "src/b.txt") eq_refl Hne) as (Hq & Hiff).
    exists v. split; [exact Hv|]. split; [exact Hq|]. split; [exact Hpath|exact Hiff].
  - destruct (toReviewUri_filePath_in_query
                (sample_uri (js "/a/b.txt") []) (Some []) None
                (js "c") false (mkGitUriOptions (Some true) None false) (sample_uri [] []))
      as (v & Hv & _ & _ & Hempty).
    exists v. split; [exact Hv|exact (Hempty (or_introl eq_refl))].
Defined.

(** ** The parser accepts only texts of the grammar *)

Lemma is_ws_char (c : unit16) : is_ws c = true <-> ws_char c.
Proof.
  unfold is_ws, ws_char. rewrite !orb_true_iff, !N.eqb_eq. tauto.
Qed.

Lemma digit_value_char (c : unit16) : (exists d, digit_value c = Some d) <-> digit_char c.
Proof.
  unfold digit_value, digit_char.
  destruct ((48 <=? c) && (c <=? 57)) eqn:E.
  - apply andb_true_iff in E. rewrite !N.leb_le in E. split; [intros _; lia|eauto].
  - apply andb_false_iff in E. rewrite !N.leb_gt in E.
    split; [intros [d H]; discriminate|lia].
Qed.

Lemma hex_value_char (c : unit16) : (exists n, hex_value c = Some n) <-> hex_char c.
Proof.
  unfold hex_value, hex_char.
  destruct ((48 <=? c) && (c <=? 57)) eqn:E1.
  { apply andb_true_iff in E1. rewrite !N.leb_le in E1. split; [intros _; lia|eauto]. }
  destruct ((97 <=? c) && (c <=? 102)) eqn:E2.
  { apply andb_true_iff in E2. rewrite !N.leb_le in E2. split; [intros _; lia|eauto]. }
  destruct ((65 <=? c) && (c <=? 70)) eqn:E3.
  { apply andb_true_iff in E3. rewrite !N.leb_le in E3. split; [intros _; lia|eauto]. }
  apply andb_false_iff in E1, E2, E3. rewrite !N.leb_gt in E1, E2, E3.
  split; [intros [n H]; discriminate|lia].
Qed.

Lemma unescape_char (e : unit16) : (exists u, unescape e = Some u) <-> escape_char e.
Proof.
  unfold unescape, escape_char, c_quote, c_backslash, c_slash.
  repeat match goal with
         | |- context [if e =? ?k then _ else _] =>
           destruct (N.eqb_spec e k) as [->|?]; [split; [intros _; lia|eauto]|]
         end.
  split; [intros [u H]; discriminate|lia].
Qed.

Lemma skip_ws_split (s : jsstring) : exists w, s = w ++ skip_ws s /\ ws_text w.
Proof.
  induction s as [|c s (w & Hs & Hw)].
  - exists []. split; [reflexivity|constructor].
  - simpl. destruct (is_ws c) eqn:E.
    + exists (c :: w). split; [simpl; congruence|].
      constructor; [apply is_ws_char; exact E|exact Hw].
    + exists []. split; [reflexivity|constructor].
Qed.

Lemma cons_fst_some {B} (a : unit16) (o : option (jsstring * B)) l b :
  cons_fst a o = Some (l, b) -> exists l', o = Some (l', b) /\ l = a :: l'.
Proof.
  destruct o as [[l' b']|]; simpl; intros H; [|discriminate].
  injection H as <- <-. eexists; split; reflexivity.
Qed.

Lemma parse_string_body_sound (s : jsstring) :
  forall k r, parse_string_body s = Some (k, r) ->
              exists b, s = b ++ 34 :: r /\ string_chars b.
Proof.
  remember (List.length s) as n eqn:Hn. revert s Hn.
  induction n as [n IH] using lt_wf_ind. intros s Hn k r H.
  destruct s as [|c s]; [discriminate|]. cbn [parse_string_body] in H.
  destruct (N.eqb_spec c c_quote) as [->|Hq].
  { injection H as _ <-. exists []. split; [reflexivity|constructor]. }
  destruct (N.eqb_spec c c_backslash) as [->|Hb].
  - destruct s as [|e s]; [discriminate|].
    destruct (N.eqb_spec e 117) as [->|He].
    + destruct s as [|h1 [|h2 [|h3 [|h4 s]]]]; try discriminate.
      destruct (hex4_value h1 h2 h3 h4) eqn:Ex; [|discriminate].
      apply cons_fst_some in H. destruct H as (l' & H & _).
      apply (IH (List.length s)) in H; [|simpl in *; lia|reflexivity].
      destruct H as (b & -> & Hchars).
      exists (92 :: 117 :: h1 :: h2 :: h3 :: h4 :: b). split; [reflexivity|].
      unfold hex4_value in Ex.
      destruct (hex_value h1) eqn:E1; [|discriminate].
      destruct (hex_value h2) eqn:E2; [|discriminate].
      destruct (hex_value h3) eqn:E3; [|discriminate].
      destruct (hex_value h4) eqn:E4; [|discriminate].
      apply chars_unicode; try (apply hex_value_char; eauto). exact Hchars.
    + destruct (unescape e) eqn:Eu; [|discriminate].
      apply cons_fst_some in H. destruct H as (l' & H & _).
      apply (IH (List.length s)) in H; [|simpl in *; lia|reflexivity].
      destruct H as (b & -> & Hchars).
      exists (92 :: e :: b). split; [reflexivity|].
      apply chars_escape; [apply unescape_char; eauto|exact Hchars].
  - destruct (N.ltb_spec c 32) as [|H32]; [discriminate|].
    apply cons_fst_some in H. destruct H as (l' & H & _).
    apply (IH (List.length s)) in H; [|simpl in *; lia|reflexivity].
    destruct H as (b & -> & Hchars).
    exists (c :: b). split; [reflexivity|].
    apply chars_plain; unfold c_quote, c_backslash in *; assumption.
Qed.

Lemma parse_digits_sound (s : jsstring) :
  forall acc cnt m c r,
    parse_digits s acc cnt = (m, c, r) ->
    exists d, s = d ++ r /\ Forall digit_char d /\ (c = cnt + Z.of_nat (List.length d))%Z.
Proof.
  induction s as [|x s IH]; intros acc cnt m c r H; simpl in H.
  - injection H as _ <- <-. exists []. repeat split; [constructor|simpl; lia].
  - destruct (digit_value x) eqn:E.
    + apply IH in H. destruct H as (d & -> & Hd & Hc).
      exists (x :: d). repeat split.
      * constructor; [apply digit_value_char; eauto|exact Hd].
      * simpl List.length. lia.
    + injection H as _ <- <-. exists []. repeat split; [constructor|simpl; lia].
Qed.

Lemma parse_int_part_sound (s : jsstring) (m : N) (r : jsstring) :
  parse_int_part s = Some (m, r) -> exists i, s = i ++ r /\ int_text i.
Proof.
  unfold parse_int_part. destruct s as [|c s]; [discriminate|].
  destruct (N.eqb_spec c c_zero) as [->|Hz].
  - intros H. injection H as _ <-. exists [48]. split; [reflexivity|constructor].
  - destruct (digit_value c) eqn:E; [|discriminate].
    destruct (parse_digits s n 0) as [[m' c'] r'] eqn:Ed. intros H.
    injection H as _ <-. apply parse_digits_sound in Ed.
    destruct Ed as (d & -> & Hd & _).
    exists (c :: d). split; [reflexivity|].
    assert (digit_char c) by (apply digit_value_char; eauto).
    constructor; [unfold digit_char, c_zero in *; lia|exact Hd].
Qed.

Lemma parse_frac_part_sound (m : N) (s : jsstring) m' e r :
  parse_frac_part m s = Some (m', e, r) -> exists f, s = f ++ r /\ frac_text f.
Proof.
  unfold parse_frac_part. destruct s as [|c s].
  - intros H. injection H as _ _ <-. exists []. split; [reflexivity|constructor].
  - destruct (N.eqb_spec c c_dot) as [->|Hd].
    + destruct (parse_digits s m 0) as [[m1 c1] r1] eqn:E.
      destruct (Z.eqb_spec c1 0); [discriminate|]. intros H. injection H as _ _ <-.
      apply parse_digits_sound in E. destruct E as (d & -> & Hd & Hc).
      exists (46 :: d). split; [reflexivity|]. constructor. split; [|exact Hd].
      intros ->. simpl in Hc. lia.
    + intros H. injection H as _ _ <-. exists []. split; [reflexivity|constructor].
Qed.

Lemma parse_exp_part_sound (s : jsstring) e r :
  parse_exp_part s = Some (e, r) -> exists x, s = x ++ r /\ exp_text x.
Proof.
  unfold parse_exp_part. destruct s as [|c s].
  - intros H. injection H as _ <-. exists []. split; [reflexivity|constructor].
  - destruct ((c =? 101) || (c =? 69)) eqn:Ec.
    + apply orb_true_iff in Ec. rewrite !N.eqb_eq in Ec.
      match goal with
      | |- context [let '(sgn, r1) := ?X in _] => destruct X as [sgn r1] eqn:Es
      end.
      assert (Hsg : exists sg, s = sg ++ r1 /\ (sg = [] \/ sg = [43] \/ sg = [45])).
      { destruct s as [|d s']; [injection Es as _ <-; exists []; auto|].
        destruct (N.eqb_spec d c_minus) as [->|];
          [injection Es as _ <-; exists [45]; auto|].
        destruct (N.eqb_spec d c_plus) as [->|];
          injection Es as _ <-; [exists [43]|exists []]; auto. }
      destruct Hsg as (sg & -> & Hsg).
      destruct (parse_digits r1 0 0) as [[e1 c1] r2] eqn:E.
      destruct (Z.eqb_spec c1 0); [discriminate|]. intros H. injection H as _ <-.
      apply parse_digits_sound in E. destruct E as (d & -> & Hd & Hc).
      exists (c :: sg ++ d). split; [simpl; rewrite <- app_assoc; reflexivity|].
      constructor; try assumption. split; [|exact Hd].
      intros ->. simpl in Hc. lia.
    + intros H. injection H as _ <-. exists []. split; [reflexivity|constructor].
Qed.

Lemma parse_number_sound (s : jsstring) (n : jsnumber) (r : jsstring) :
  parse_number s = Some (n, r) -> exists t, s = t ++ r /\ number_text t.
Proof.
  unfold parse_number.
  match goal with
  | |- context [let '(neg, s1) := ?X in _] => destruct X as [neg s1] eqn:Es
  end.
  assert (Hm : exists m, s = m ++ s1 /\ (m = [] \/ m = [45])).
  { destruct s as [|c s']; [injection Es as _ <-; exists []; auto|].
    destruct (N.eqb_spec c c_minus) as [->|];
      injection Es as _ <-; [exists [45]|exists []]; auto. }
  destruct Hm as (m & -> & Hm).
  destruct (parse_int_part s1) as [[mi s2]|] eqn:E1; [|discriminate].
  destruct (parse_frac_part mi s2) as [[[m' e1] s3]|] eqn:E2; [|discriminate].
  destruct (parse_exp_part s3) as [[e2 s4]|] eqn:E3; [|discriminate].
  intros H. injection H as _ <-.
  apply parse_int_part_sound in E1. destruct E1 as (i & -> & Hi).
  apply parse_frac_part_sound in E2. destruct E2 as (f & -> & Hf).
  apply parse_exp_part_sound in E3. destruct E3 as (x & -> & Hx).
  exists (m ++ i ++ f ++ x). split; [rewrite <- !app_assoc; reflexivity|].
  constructor; assumption.
Qed.

Lemma strip_prefix_sound (p s r : jsstring) :
  strip_prefix p s = Some r -> s = p ++ r.
Proof.
  revert s; induction p as [|a p IH]; intros s H; simpl in H.
  - injection H as <-. reflexivity.
  - destruct s as [|b s]; [discriminate|].
    destruct (N.eqb_spec a b) as [->|]; [|discriminate].
    apply IH in H. subst. reflexivity.
Qed.

Lemma ws_text_app (w1 w2 : jsstring) : ws_text w1 -> ws_text w2 -> ws_text (w1 ++ w2).
Proof. unfold ws_text. intros H1 H2. apply Forall_app. split; assumption. Qed.

Lemma skip_ws_cons_split (s : jsstring) (c : unit16) (t : jsstring) :
  skip_ws s = c :: t -> exists w, s = w ++ c :: t /\ ws_text w.
Proof.
  intros H. destruct (skip_ws_split s) as (w & Hs & Hw).
  exists w. rewrite H in Hs. split; assumption.
Qed.

(** What each parsing function consumes is a text of the grammar. *)
Lemma parse_sound (f : nat) :
  (forall s v r,
     parse_value f s = POk v r ->
     exists w t, s = w ++ t ++ r /\ ws_text w /\ value_text t) /\
  (forall s acc v r,
     parse_elements f s acc = POk v r ->
     exists es, s = es ++ 93 :: r /\ forall w, ws_text w -> elements_text (w ++ es)) /\
  (forall s acc v r,
     parse_members f s acc = POk v r ->
     exists ms, s = ms ++ 125 :: r /\ forall w, ws_text w -> members_text (w ++ ms)).
Proof.
  induction f as [|f (IHv & IHe & IHm)]; [repeat split; discriminate|].
  split; [|split].
  - intros s v r. rewrite parse_value_S.
    destruct (skip_ws s) as [|c t] eqn:Es; [discriminate|].
    apply skip_ws_cons_split in Es. destruct Es as (w & -> & Hw).
    destruct (N.eqb_spec c c_lbrace) as [->|_].
    { destruct (skip_ws t) as [|d t'] eqn:Et; [discriminate|].
      apply skip_ws_cons_split in Et. destruct Et as (w' & -> & Hw').
      destruct (N.eqb_spec d c_rbrace) as [->|_].
      - intros H; injection H as _ <-.
        exists w, (123 :: w' ++ [125]). split; [|split; [exact Hw|]].
        + cbn [app]. rewrite <- app_assoc. reflexivity.
        + apply text_empty_object. exact Hw'.
      - intros H. apply IHm in H. destruct H as (ms & Hms & Hm).
        exists w, (123 :: (w' ++ ms) ++ [125]). split; [|split; [exact Hw|]].
        + rewrite Hms. repeat (rewrite <- ?app_assoc; cbn [app]). reflexivity.
        + apply text_object. apply Hm. exact Hw'. }
    destruct (N.eqb_spec c c_lbracket) as [->|_].
    { destruct (skip_ws t) as [|d t'] eqn:Et; [discriminate|].
      apply skip_ws_cons_split in Et. destruct Et as (w' & -> & Hw').
      destruct (N.eqb_spec d c_rbracket) as [->|_].
      - intros H; injection H as _ <-.
        exists w, (91 :: w' ++ [93]). split; [|split; [exact Hw|]].
        + cbn [app]. rewrite <- app_assoc. reflexivity.
        + apply text_empty_array. exact Hw'.
      - intros H. apply IHe in H. destruct H as (es & Hes & He).
        exists w, (91 :: (w' ++ es) ++ [93]). split; [|split; [exact Hw|]].
        + rewrite Hes. repeat (rewrite <- ?app_assoc; cbn [app]). reflexivity.
        + apply text_array. apply He. exact Hw'. }
    destruct (N.eqb_spec c c_quote) as [->|_].
    { destruct (parse_string_body t) as [[k t']|] eqn:Ek; [|discriminate].
      apply parse_string_body_sound in Ek. destruct Ek as (b & -> & Hb).
      intros H; injection H as _ <-.
      exists w, (34 :: b ++ [34]). split; [|split; [exact Hw|]].
      - cbn [app]. rewrite <- app_assoc. reflexivity.
      - apply text_string. exact Hb. }
    destruct (N.eqb_spec c 116) as [->|_].
    { destruct (strip_prefix (js "rue") t) as [t'|] eqn:Ep; [|discriminate].
      apply strip_prefix_sound in Ep. subst t. intros H; injection H as _ <-.
      exists w, (js "true"). split; [reflexivity|split; [exact Hw|constructor]]. }
    destruct (N.eqb_spec c 102) as [->|_].
    { destruct (strip_prefix (js "alse") t) as [t'|] eqn:Ep; [|discriminate].
      apply strip_prefix_sound in Ep. subst t. intros H; injection H as _ <-.
      exists w, (js "false"). split; [reflexivity|split; [exact Hw|constructor]]. }
    destruct (N.eqb_spec c 110) as [->|_].
    { destruct (strip_prefix (js "ull") t) as [t'|] eqn:Ep; [|discriminate].
      apply strip_prefix_sound in Ep. subst t. intros H; injection H as _ <-.
      exists w, (js "null"). split; [reflexivity|split; [exact Hw|constructor]]. }
    destruct (parse_number (c :: t)) as [[n t']|] eqn:En; [|discriminate].
    apply parse_number_sound in En. destruct En as (x & Hx & Hn).
    intros H; injection H as _ <-.
    exists w, x. split; [rewrite Hx; reflexivity|split; [exact Hw|]].
    apply text_number. exact Hn.
  - intros s acc v r. rewrite parse_elements_S.
    destruct (parse_value f s) as [v1 r1| |] eqn:Ev; try discriminate.
    apply IHv in Ev. destruct Ev as (w1 & t & -> & Hw1 & Ht).
    destruct (skip_ws r1) as [|d r'] eqn:Et; [discriminate|].
    apply skip_ws_cons_split in Et. destruct Et as (w2 & -> & Hw2).
    destruct (N.eqb_spec d c_comma) as [->|_].
    + intros H. apply IHe in H. destruct H as (es & -> & He).
      exists (w1 ++ t ++ w2 ++ 44 :: es). split.
      * repeat (rewrite <- ?app_assoc; cbn [app]). reflexivity.
      * intros w Hw. rewrite app_assoc. apply elements_more; try assumption.
        -- apply ws_text_app; assumption.
        -- apply (He []). constructor.
    + destruct (N.eqb_spec d c_rbracket) as [->|_]; [|discriminate].
      intros H; injection H as _ <-.
      exists (w1 ++ t ++ w2). split.
      * repeat (rewrite <- ?app_assoc; cbn [app]). reflexivity.
      * intros w Hw. rewrite app_assoc. apply elements_last; try assumption.
        apply ws_text_app; assumption.
  - intros s acc v r. rewrite parse_members_S.
    destruct s as [|c t]; [discriminate|].
    destruct (N.eqb_spec c c_quote) as [->|_]; [|discriminate].
    destruct (parse_string_body t) as [[k r1]|] eqn:Ek; [|discriminate].
    apply parse_string_body_sound in Ek. destruct Ek as (b & -> & Hb).
    destruct (skip_ws r1) as [|d r2] eqn:E1; [discriminate|].
    apply skip_ws_cons_split in E1. destruct E1 as (w2 & -> & Hw2).
    destruct (N.eqb_spec d c_colon) as [->|_]; [|discriminate].
    destruct (parse_value f r2) as [v1 r3| |] eqn:Ev; try discriminate.
    apply IHv in Ev. destruct Ev as (w3 & t & -> & Hw3 & Ht).
    destruct (skip_ws r3) as [|e r4] eqn:E3; [discriminate|].
    apply skip_ws_cons_split in E3. destruct E3 as (w4 & -> & Hw4).
    destruct (N.eqb_spec e c_comma) as [->|_].
    + intros H. apply IHm in H. destruct H as (ms & Hms & Hm).
      destruct (skip_ws_split r4) as (w5 & Hr4 & Hw5).
      exists (34 :: b ++ 34 :: w2 ++ 58 :: w3 ++ t ++ w4 ++ 44 :: w5 ++ ms). split.
      * rewrite Hr4, Hms. cbn [app c_quote].
        repeat (rewrite <- ?app_assoc; cbn [app]). reflexivity.
      * intros w Hw.
        apply (members_more w b w2 w3 t w4 (w5 ++ ms)); try assumption.
        apply Hm. exact Hw5.
    + destruct (N.eqb_spec e c_rbrace) as [->|_]; [|discriminate].
      intros H; injection H as _ <-.
      exists (34 :: b ++ 34 :: w2 ++ 58 :: w3 ++ t ++ w4). split.
      * cbn [app c_quote]. repeat (rewrite <- ?app_assoc; cbn [app]). reflexivity.
      * intros w Hw. apply (members_last w b w2 w3 t w4); assumption.
Qed.

(** Soundness of the parser: a text it accepts is a JSON text. *)
Lemma JSON_parse_sound (text : jsstring) (v : value) :
  JSON_parse text = Normal v -> JSON_text text.
Proof.
  unfold JSON_parse.
  destruct (parse_value (parse_budget text) text) as [v' r| |] eqn:E; try discriminate.
  destruct (skip_ws r) as [|c t] eqn:Er; [|discriminate]. intros _.
  apply (proj1 (parse_sound _)) in E. destruct E as (w & t & -> & Hw & Ht).
  destruct (skip_ws_split r) as (w2 & Hr & Hw2). rewrite Er, List.app_nil_r in Hr. subst w2.
  exists w, t, r. repeat split; assumption.
Qed.

(** ** The parser accepts every text of the grammar *)

(** A result that is not a want of budget stays the same at any larger
    budget. *)
Lemma parse_fuel_mono (f : nat) :
  forall f', (f <= f')%nat ->
    (forall s, parse_value f s <> PFuel -> parse_value f' s = parse_value f s) /\
    (forall s acc, parse_elements f s acc <> PFuel ->
                   parse_elements f' s acc = parse_elements f s acc) /\
    (forall s acc, parse_members f s acc <> PFuel ->
                   parse_members f' s acc = parse_members f s acc).
Proof.
  induction f as [|f IH]; intros f' Hle.
  { repeat split; intros; exfalso; auto. }
  destruct f' as [|f']; [lia|].
  destruct (IH f' ltac:(lia)) as (IHv & IHe & IHm).
  split; [|split].
  - intros s. rewrite !parse_value_S.
    destruct (skip_ws s) as [|c t]; [reflexivity|].
    destruct (c =? c_lbrace).
    { destruct (skip_ws t) as [|d t']; [reflexivity|].
      destruct (d =? c_rbrace); [reflexivity|]. apply IHm. }
    destruct (c =? c_lbracket).
    { destruct (skip_ws t) as [|d t']; [reflexivity|].
      destruct (d =? c_rbracket); [reflexivity|]. apply IHe. }
    reflexivity.
  - intros s acc. rewrite !parse_elements_S.
    destruct (parse_value f s) as [v1 r1| |] eqn:Ev.
    + rewrite IHv, Ev by (rewrite Ev; discriminate).
      destruct (skip_ws r1) as [|d t]; [reflexivity|].
      destruct (d =? c_comma); [apply IHe|reflexivity].
    + rewrite IHv, Ev by (rewrite Ev; discriminate). reflexivity.
    + intros H. exfalso. apply H. reflexivity.
  - intros s acc. rewrite !parse_members_S.
    destruct s as [|c t]; [reflexivity|].
    destruct (c =? c_quote); [|reflexivity].
    destruct (parse_string_body t) as [[k r1]|]; [|reflexivity].
    destruct (skip_ws r1) as [|d r2]; [reflexivity|].
    destruct (d =? c_colon); [|reflexivity].
    destruct (parse_value f r2) as [v1 r3| |] eqn:Ev.
    + rewrite IHv, Ev by (rewrite Ev; discriminate).
      destruct (skip_ws r3) as [|e r4]; [reflexivity|].
      destruct (e =? c_comma); [apply IHm|reflexivity].
    + rewrite IHv, Ev by (rewrite Ev; discriminate). reflexivity.
    + intros H. exfalso. apply H. reflexivity.
Qed.

Lemma skip_ws_app (w s : jsstring) : ws_text w -> skip_ws (w ++ s) = skip_ws s.
Proof.
  induction 1 as [|c w Hc _ IH]; [reflexivity|].
  cbn [app skip_ws]. apply is_ws_char in Hc. rewrite Hc. exact IH.
Qed.

Lemma skip_ws_idem (s : jsstring) : skip_ws (skip_ws s) = skip_ws s.
Proof.
  induction s as [|c s IH]; [reflexivity|]. simpl.
  destruct (is_ws c) eqn:E; [exact IH|]. simpl. rewrite E. reflexivity.
Qed.

Lemma parse_value_skip_ws (f : nat) (s : jsstring) :
  parse_value f (skip_ws s) = parse_value f s.
Proof.
  destruct f; [reflexivity|]. rewrite !parse_value_S, skip_ws_idem. reflexivity.
Qed.

Lemma parse_elements_skip_ws (f : nat) (s : jsstring) (acc : list value) :
  parse_elements f (skip_ws s) acc = parse_elements f s acc.
Proof.
  destruct f; [reflexivity|]. rewrite !parse_elements_S, parse_value_skip_ws. reflexivity.
Qed.

Lemma string_chars_complete (b : jsstring) :
  string_chars b -> forall r, exists k, parse_string_body (b ++ 34 :: r) = Some (k, r).
Proof.
  induction 1 as [|c t H32 Hq Hb _ IH|e t He _ IH|h1 h2 h3 h4 t H1 H2 H3 H4 _ IH];
    intros r.
  - exists []. reflexivity.
  - destruct (IH r) as [k Hk]. exists (c :: k).
    cbn [app]. rewrite parse_string_body_plain by assumption. rewrite Hk. reflexivity.
  - destruct (IH r) as [k Hk].
    apply unescape_char in He. destruct He as [u Hu].
    assert (Hne : e <> 117) by (intros ->; discriminate).
    exists (u :: k). cbn [app parse_string_body].
    change (92 =? c_quote) with false. change (92 =? c_backslash) with true. cbv iota.
    destruct (N.eqb_spec e 117); [contradiction|]. rewrite Hu, Hk. reflexivity.
  - destruct (IH r) as [k Hk].
    apply hex_value_char in H1, H2, H3, H4.
    destruct H1 as [n1 E1], H2 as [n2 E2], H3 as [n3 E3], H4 as [n4 E4].
    eexists. cbn [app parse_string_body].
    change (92 =? c_quote) with false. change (92 =? c_backslash) with true.
    change (117 =? 117) with true. cbv iota.
    unfold hex4_value. rewrite E1, E2, E3, E4, Hk. reflexivity.
Qed.

Lemma parse_digits_complete (d : jsstring) :
  Forall digit_char d ->
  forall r, stops_digits r = true ->
  forall acc cnt, exists m,
    parse_digits (d ++ r) acc cnt = (m, (cnt + Z.of_nat (List.length d))%Z, r).
Proof.
  induction 1 as [|c d Hc _ IH]; intros r Hr acc cnt.
  - exists acc. cbn [app List.length]. rewrite parse_digits_end by assumption.
    f_equal. f_equal. simpl. lia.
  - apply digit_value_char in Hc. destruct Hc as [x Hx].
    destruct (IH r Hr (acc * 10 + x) (cnt + 1)%Z) as [m Hm].
    exists m. cbn [app parse_digits]. rewrite Hx, Hm.
    f_equal. f_equal. cbn [List.length]. lia.
Qed.

Lemma int_text_complete (i : jsstring) :
  int_text i -> forall r, stops_digits r = true ->
  exists m, parse_int_part (i ++ r) = Some (m, r).
Proof.
  intros [|c d Hc Hd] r Hr.
  - exists 0. reflexivity.
  - assert (Hdc : digit_char c) by (unfold digit_char; lia).
    apply digit_value_char in Hdc. destruct Hdc as [x Hx].
    destruct (parse_digits_complete d Hd r Hr x 0%Z) as [m Hm].
    exists m. cbn [app]. unfold parse_int_part.
    destruct (N.eqb_spec c c_zero) as [E|_]; [unfold c_zero in E; lia|].
    rewrite Hx, Hm. reflexivity.
Qed.

Lemma frac_text_complete (f : jsstring) :
  frac_text f -> forall r m, stops_digits r = true -> head_not 46 r ->
  exists m' e, parse_frac_part m (f ++ r) = Some (m', e, r).
Proof.
  intros [|d [Hne Hd]] r m Hr H46.
  - exists m, 0%Z. cbn [app]. apply parse_frac_part_none.
    destruct r; [trivial|exact H46].
  - destruct (parse_digits_complete d Hd r Hr m 0%Z) as [m' Hm].
    exists m', (- (0 + Z.of_nat (List.length d)))%Z.
    cbn [app]. unfold parse_frac_part. change (46 =? c_dot) with true. cbv iota.
    rewrite Hm.
    destruct (Z.eqb_spec (0 + Z.of_nat (List.length d)) 0) as [E|_]; [|reflexivity].
    destruct d; [contradiction|simpl in E; lia].
Qed.

Lemma digits_text_head (d r : jsstring) :
  digits_text d -> exists c t, d ++ r = c :: t /\ digit_char c.
Proof.
  intros [Hne Hd]. destruct d as [|c d]; [contradiction|].
  inversion Hd; subst. exists c, (d ++ r). split; [reflexivity|assumption].
Qed.

Lemma exp_text_complete (x : jsstring) :
  exp_text x -> forall r, stops_digits r = true -> head_not 101 r -> head_not 69 r ->
  exists e, parse_exp_part (x ++ r) = Some (e, r).
Proof.
  intros [|c sg d Hc Hsg Hd] r Hr H101 H69.
  - exists 0%Z. cbn [app]. apply parse_exp_part_none.
    destruct r; [trivial|split; assumption].
  - destruct (parse_digits_complete d (proj2 Hd) r Hr 0 0%Z) as [m Hm].
    assert (Hlen : (0 + Z.of_nat (List.length d) =? 0)%Z = false).
    { apply Z.eqb_neq. destruct Hd as [Hne _]. destruct d; [contradiction|simpl; lia]. }
    assert (Hce : (c =? 101) || (c =? 69) = true).
    { apply orb_true_iff. rewrite !N.eqb_eq. exact Hc. }
    cbn [app]. unfold parse_exp_part. rewrite Hce.
    destruct Hsg as [->|[->| ->]]; cbn [app].
    + destruct (digits_text_head d r Hd) as (c0 & t & Hdr & Hc0).
      rewrite Hdr in *. unfold digit_char in Hc0.
      destruct (N.eqb_spec c0 c_minus) as [E|_]; [unfold c_minus in E; lia|].
      destruct (N.eqb_spec c0 c_plus) as [E|_]; [unfold c_plus in E; lia|].
      rewrite Hm, Hlen. eexists; reflexivity.
    + change (43 =? c_minus) with false. change (43 =? c_plus) with true. cbv iota.
      rewrite Hm, Hlen. eexists; reflexivity.
    + change (45 =? c_minus) with true. cbv iota.
      rewrite Hm, Hlen. eexists; reflexivity.
Qed.

Lemma ends_token_head_not (r : jsstring) (k : unit16) :
  ends_token r = true ->
  k <> 44 -> k <> 125 -> k <> 93 -> k <> 9 -> k <> 10 -> k <> 13 -> k <> 32 ->
  head_not k r.
Proof.
  intros H. apply ends_token_cases in H. destruct r as [|c r]; [intros; exact I|].
  cbn. intros. intros ->. lia.
Qed.

Lemma number_text_complete (n : jsstring) :
  number_text n -> forall r, ends_token r = true ->
  exists x, parse_number (n ++ r) = Some (x, r).
Proof.
  intros [m i f e Hm Hi Hf He] r Hr.
  pose proof (ends_token_stops_digits r Hr) as Hs.
  assert (H46 : head_not 46 r) by (apply ends_token_head_not; [assumption|lia..]).
  assert (H101 : head_not 101 r) by (apply ends_token_head_not; [assumption|lia..]).
  assert (H69 : head_not 69 r) by (apply ends_token_head_not; [assumption|lia..]).
  assert (Her : stops_digits (e ++ r) = true /\ head_not 46 (e ++ r)).
  { destruct He as [|c sg d [Hc|Hc] _ _]; [split; assumption|subst c..];
      split; cbn; (reflexivity || lia). }
  destruct Her as [Hes He46].
  assert (Hfer : stops_digits (f ++ e ++ r) = true).
  { destruct Hf as [|d _]; [exact Hes|reflexivity]. }
  destruct (int_text_complete i Hi (f ++ e ++ r) Hfer) as [mi Hmi].
  destruct (frac_text_complete f Hf (e ++ r) mi Hes He46) as (m' & e1 & Hfr).
  destruct (exp_text_complete e He r Hs H101 H69) as [e2 Hex].
  exists (mkNumber (match m with [] => false | _ => true end) m' (e1 + e2)).
  rewrite <- !app_assoc. unfold parse_number.
  destruct Hm as [->| ->]; cbn [app].
  - assert (Hhd : exists c t, i ++ f ++ e ++ r = c :: t /\ digit_char c).
    { destruct Hi as [|c d Hc _]; eexists; eexists; (split; [reflexivity|]);
        unfold digit_char; lia. }
    destruct Hhd as (c & t & Hit & Hc). rewrite Hit.
    destruct (N.eqb_spec c c_minus) as [E|_];
      [unfold digit_char, c_minus in *; lia|].
    rewrite <- Hit, Hmi, Hfr, Hex. reflexivity.
  - change (45 =? c_minus) with true. cbv iota.
    rewrite Hmi, Hfr, Hex. reflexivity.
Qed.

Lemma number_text_head (n : jsstring) :
  number_text n -> exists c t, n = c :: t /\ (c = 45 \/ 48 <= c <= 57).
Proof.
  intros [m i f e Hm Hi _ _].
  destruct Hm as [->| ->]; [|eexists; eexists; split; [reflexivity|left; reflexivity]].
  destruct Hi as [|c d Hc _]; eexists; eexists; (split; [reflexivity|right; lia]).
Qed.

Ltac list_assoc :=
  cbv delta [jsstring unit16] in *;
  repeat (rewrite <- ?List.app_assoc; cbn [app]).

Lemma parse_value_number_head (f : nat) (c : unit16) (t : jsstring) :
  c = 45 \/ 48 <= c <= 57 ->
  parse_value (S f) (c :: t) =
  match parse_number (c :: t) with
  | Some (n, r') => POk (VNumber n) r'
  | None => PSyntax
  end.
Proof.
  intros Hc. rewrite parse_value_S.
  assert (Hws : is_ws c = false).
  { unfold is_ws. rewrite !orb_false_iff, !N.eqb_neq. lia. }
  rewrite skip_ws_head by assumption.
  unfold c_lbrace, c_lbracket, c_quote.
  repeat match goal with
         | |- context [if c =? ?k then _ else _] =>
           destruct (N.eqb_spec c k) as [E|_]; [exfalso; lia|]
         end.
  reflexivity.
Qed.

Lemma value_text_head (v : jsstring) :
  value_text v ->
  exists c t, v = c :: t /\ is_ws c = false /\ c <> 93 /\ c <> 125.
Proof.
  intros [| | |n Hn|b _|w _|es _|w _|ms _];
    try (eexists; eexists; split; [reflexivity|]; split; [reflexivity|]; split; discriminate).
  destruct (number_text_head n Hn) as (c & t & -> & Hc).
  exists c, t. split; [reflexivity|]. split; [|lia].
  unfold is_ws. rewrite !orb_false_iff, !N.eqb_neq. lia.
Qed.

Lemma elements_text_head (es x : jsstring) :
  elements_text es -> exists c t, skip_ws (es ++ x) = c :: t /\ c <> 93.
Proof.
  intros [w1 v w2 Hw1 Hv _|w1 v w2 es' Hw1 Hv _ _];
    destruct (value_text_head v Hv) as (c & t & -> & Hc & H93 & _);
    list_assoc; rewrite skip_ws_app, skip_ws_head by assumption;
    eexists; eexists; (split; [reflexivity|assumption]).
Qed.

Lemma members_text_head (ms x : jsstring) :
  members_text ms -> exists t, skip_ws (ms ++ x) = 34 :: t.
Proof.
  intros [w1 k w2 w3 v w4 Hw1 _ _ _ _ _|w1 k w2 w3 v w4 ms' Hw1 _ _ _ _ _ _];
    list_assoc; rewrite skip_ws_app, skip_ws_head by (assumption || reflexivity);
    eexists; reflexivity.
Qed.

Lemma ends_token_ws (w r : jsstring) (c : unit16) :
  ws_text w -> c = 44 \/ c = 125 \/ c = 93 -> ends_token (w ++ c :: r) = true.
Proof.
  intros Hw Hc. destruct Hw as [|x w' Hx _]; cbn [app ends_token].
  - unfold c_comma, c_rbrace, c_rbracket. rewrite !orb_true_iff, !N.eqb_eq. tauto.
  - apply is_ws_char in Hx. rewrite Hx, !orb_true_r. reflexivity.
Qed.

Lemma ends_token_ws_end (w : jsstring) : ws_text w -> ends_token w = true.
Proof.
  intros [|x w' Hx _]; [reflexivity|]. cbn [ends_token].
  apply is_ws_char in Hx. rewrite Hx, !orb_true_r. reflexivity.
Qed.

(** Completeness, for each kind of text, at every budget from some budget
    on. *)
Lemma parse_complete :
  (forall t, value_text t ->
     forall r, ends_token r = true ->
     exists v f0, forall f, (f0 <= f)%nat -> forall w, ws_text w ->
       parse_value f (w ++ t ++ r) = POk v r) /\
  (forall es, elements_text es ->
     forall r acc,
     exists v f0, forall f, (f0 <= f)%nat ->
       parse_elements f (es ++ 93 :: r) acc = POk v r) /\
  (forall ms, members_text ms ->
     forall r acc,
     exists v f0, forall f, (f0 <= f)%nat ->
       parse_members f (skip_ws (ms ++ 125 :: r)) acc = POk v r).
Proof.
  apply json_text_mutind.
  - intros r Hr. exists VNull, 1%nat. intros [|f] Hf w Hw; [lia|].
    rewrite parse_value_S, skip_ws_app by assumption. reflexivity.
  - intros r Hr. exists (VBool true), 1%nat. intros [|f] Hf w Hw; [lia|].
    rewrite parse_value_S, skip_ws_app by assumption. reflexivity.
  - intros r Hr. exists (VBool false), 1%nat. intros [|f] Hf w Hw; [lia|].
    rewrite parse_value_S, skip_ws_app by assumption. reflexivity.
  - intros n Hn r Hr.
    destruct (number_text_complete n Hn r Hr) as [x Hx].
    destruct (number_text_head n Hn) as (c & t & -> & Hc).
    exists (VNumber x), 1%nat. intros [|f] Hf w Hw; [lia|].
    rewrite <- parse_value_skip_ws, skip_ws_app by assumption.
    assert (Hws : is_ws c = false).
    { unfold is_ws. rewrite !orb_false_iff, !N.eqb_neq. lia. }
    cbn [app] in *. rewrite skip_ws_head by assumption.
    rewrite parse_value_number_head by assumption. rewrite Hx. reflexivity.
  - intros b Hb r Hr.
    destruct (string_chars_complete b Hb r) as [k Hk].
    exists (VString k), 1%nat. intros [|f] Hf w Hw; [lia|].
    rewrite parse_value_S, skip_ws_app by assumption. list_assoc.
    rewrite skip_ws_head by reflexivity.
    change (34 =? c_lbrace) with false. change (34 =? c_lbracket) with false.
    change (34 =? c_quote) with true. cbv iota. rewrite Hk. reflexivity.
  - intros w0 Hw0 r Hr. exists (VArray []), 1%nat. intros [|f] Hf w Hw; [lia|].
    rewrite parse_value_S, skip_ws_app by assumption. list_assoc.
    rewrite skip_ws_head by reflexivity.
    change (91 =? c_lbrace) with false. change (91 =? c_lbracket) with true. cbv iota.
    rewrite skip_ws_app, skip_ws_head by (assumption || reflexivity). reflexivity.
  - intros es Hes IH r Hr.
    destruct (IH r []) as (v & f0 & Hv).
    destruct (elements_text_head es (93 :: r) Hes) as (c & t & Hct & H93).
    exists v, (S f0). intros [|f] Hf w Hw; [lia|].
    rewrite parse_value_S, skip_ws_app by assumption. list_assoc.
    rewrite skip_ws_head by reflexivity.
    change (91 =? c_lbrace) with false. change (91 =? c_lbracket) with true. cbv iota.
    rewrite Hct. destruct (N.eqb_spec c c_rbracket) as [E|_]; [contradiction|].
    rewrite <- Hct, parse_elements_skip_ws. apply Hv. lia.
  - intros w0 Hw0 r Hr. exists (VObject []), 1%nat. intros [|f] Hf w Hw; [lia|].
    rewrite parse_value_S, skip_ws_app by assumption. list_assoc.
    rewrite skip_ws_head by reflexivity.
    change (123 =? c_lbrace) with true. cbv iota.
    rewrite skip_ws_app, skip_ws_head by (assumption || reflexivity). reflexivity.
  - intros ms Hms IH r Hr.
    destruct (IH r []) as (v & f0 & Hv).
    destruct (members_text_head ms (125 :: r) Hms) as (t & Ht).
    exists v, (S f0). intros [|f] Hf w Hw; [lia|].
    rewrite parse_value_S, skip_ws_app by assumption. list_assoc.
    rewrite skip_ws_head by reflexivity.
    change (123 =? c_lbrace) with true. cbv iota.
    rewrite Ht. change (34 =? c_rbrace) with false. cbv iota.
    rewrite <- Ht. apply Hv. lia.
  - intros w1 v w2 Hw1 Hv IHv Hw2 r acc.
    destruct (IHv (w2 ++ 93 :: r)) as (x & f0 & Hx); [apply ends_token_ws; auto|].
    exists (VArray (acc ++ [x])), (S f0). intros [|f] Hf; [lia|].
    rewrite parse_elements_S. list_assoc. rewrite Hx by (assumption || lia).
    rewrite skip_ws_app, skip_ws_head by (assumption || reflexivity).
    reflexivity.
  - intros w1 v w2 es Hw1 Hv IHv Hw2 Hes IHes r acc.
    destruct (IHv (w2 ++ 44 :: es ++ 93 :: r)) as (x & f0 & Hx);
      [apply ends_token_ws; auto|].
    destruct (IHes r (acc ++ [x])) as (y & f1 & Hy).
    exists y, (S (f0 + f1)). intros [|f] Hf; [lia|].
    rewrite parse_elements_S. list_assoc. rewrite Hx by (assumption || lia).
    rewrite skip_ws_app, skip_ws_head by (assumption || reflexivity).
    change (44 =? c_comma) with true. cbv iota. apply Hy. lia.
  - intros w1 k w2 w3 v w4 Hw1 Hk Hw2 Hw3 Hv IHv Hw4 r acc.
    destruct (string_chars_complete k Hk (w2 ++ 58 :: w3 ++ v ++ w4 ++ 125 :: r))
      as [key Hkey].
    destruct (IHv (w4 ++ 125 :: r)) as (x & f0 & Hx); [apply ends_token_ws; auto|].
    exists (VObject (obj_define key x acc)), (S f0). intros [|f] Hf; [lia|].
    list_assoc. rewrite skip_ws_app, skip_ws_head by (assumption || reflexivity).
    rewrite parse_members_S. change (34 =? c_quote) with true. cbv iota.
    rewrite Hkey. rewrite skip_ws_app, skip_ws_head by (assumption || reflexivity).
    change (58 =? c_colon) with true. cbv iota.
    rewrite Hx by (assumption || lia).
    rewrite skip_ws_app, skip_ws_head by (assumption || reflexivity).
    reflexivity.
  - intros w1 k w2 w3 v w4 ms Hw1 Hk Hw2 Hw3 Hv IHv Hw4 Hms IHms r acc.
    destruct (string_chars_complete k Hk
                (w2 ++ 58 :: w3 ++ v ++ w4 ++ 44 :: ms ++ 125 :: r)) as [key Hkey].
    destruct (IHv (w4 ++ 44 :: ms ++ 125 :: r)) as (x & f0 & Hx);
      [apply ends_token_ws; auto|].
    destruct (IHms r (obj_define key x acc)) as (y & f1 & Hy).
    exists y, (S (f0 + f1)). intros [|f] Hf; [lia|].
    list_assoc. rewrite skip_ws_app, skip_ws_head by (assumption || reflexivity).
    rewrite parse_members_S. change (34 =? c_quote) with true. cbv iota.
    rewrite Hkey. rewrite skip_ws_app, skip_ws_head by (assumption || reflexivity).
    change (58 =? c_colon) with true. cbv iota.
    rewrite Hx by (assumption || lia).
    rewrite skip_ws_app, skip_ws_head by (assumption || reflexivity).
    change (44 =? c_comma) with true. cbv iota. apply Hy. lia.
Qed.

(** Completeness of the parser: every JSON text is accepted. *)
Lemma JSON_parse_complete (text : jsstring) :
  JSON_text text -> exists v, JSON_parse text = Normal v.
Proof.
  intros (w1 & t & w2 & -> & Hw1 & Ht & Hw2).
  destruct (proj1 parse_complete t Ht w2 (ends_token_ws_end w2 Hw2)) as (v & f0 & Hv).
  exists v. unfold JSON_parse.
  set (s := w1 ++ t ++ w2).
  pose proof (JSON_parse_budget s) as Hb.
  pose proof (Hv (Nat.max f0 (parse_budget s)) (Nat.le_max_l _ _) w1 Hw1) as Hmax.
  fold s in Hmax.
  rewrite (proj1 (parse_fuel_mono (parse_budget s) _ (Nat.le_max_r f0 _)) s Hb) in Hmax.
  rewrite Hmax. rewrite <- (List.app_nil_r w2), skip_ws_app by assumption. reflexivity.
Qed.

(** The parser decides the grammar. *)
Lemma JSON_parse_valid (text : jsstring) :
  JSON_text text <-> exists v, JSON_parse text = Normal v.
Proof.
  split; [apply JSON_parse_complete|]. intros [v H]. exact (JSON_parse_sound _ _ H).
Qed.

(** ** The decoders and the parser's failures *)

Lemma JSON_parse_empty : JSON_parse [] = Throw SyntaxError.
Proof. reflexivity. Qed.

Lemma JSON_parse_not_json : JSON_parse (js "not json") = Throw SyntaxError.
Proof. reflexivity. Qed.

(** [JSON.parse] throws nothing but a SyntaxError. *)
Lemma JSON_parse_throws (text : jsstring) (e : exn) :
  JSON_parse text = Throw e -> e = SyntaxError.
Proof.
  unfold JSON_parse.
  destruct (parse_value (parse_budget text) text) as [v r| |].
  - destruct (skip_ws r); [discriminate|]. intros H; injection H as <-; reflexivity.
  - intros H; injection H as <-; reflexivity.
  - intros H; injection H as <-; reflexivity.
Qed.

(** On a text that is not JSON the parser throws a SyntaxError. *)
Lemma JSON_parse_invalid (text : jsstring) :
  ~ JSON_text text -> JSON_parse text = Throw SyntaxError.
Proof.
  intros H. destruct (JSON_parse text) as [v|e] eqn:E.
  - exfalso. apply H. exact (JSON_parse_sound _ _ E).
  - f_equal. exact (JSON_parse_throws _ _ E).
Qed.

(** A text the parser rejects is not JSON. *)
Lemma JSON_parse_rejects (text : jsstring) (e : exn) :
  JSON_parse text = Throw e -> ~ JSON_text text.
Proof.
  intros E H. apply JSON_parse_complete in H. destruct H as [v H]. congruence.
Qed.

Lemma not_JSON_text_empty : ~ JSON_text [].
Proof. exact (JSON_parse_rejects _ _ JSON_parse_empty). Qed.

Lemma not_JSON_text_not_json : ~ JSON_text (js "not json").
Proof. exact (JSON_parse_rejects _ _ JSON_parse_not_json). Qed.



(** C3: [fromReviewUri] is [JSON.parse] with no handler around it.  On every
    query that is not a JSON text it throws a SyntaxError to the caller;
    whatever a parser throws reaches the caller; and on no query at all does
    it return [undefined]. *)
Theorem fromReviewUri_propagates :
  forall query : jsstring,
    (~ JSON_text query -> fromReviewUri query = Throw SyntaxError) /\
    (forall parse e, parse query = Throw e -> Over.fromReviewUri parse query = Throw e) /\
    (fromReviewUri query = Throw SyntaxError \/
     exists v, v <> VUndefined /\ fromReviewUri query = Normal v).
Proof.
  intros query. split; [|split].
  - exact (JSON_parse_invalid query).
  - intros parse e H. exact H.
  - unfold fromReviewUri, Over.fromReviewUri.
    destruct (JSON_parse query) as [v|e] eqn:E.
    + right. exists v. split; [|reflexivity].
      intros ->. exact (JSON_parse_defined _ E).
    + left. f_equal. exact (JSON_parse_throws _ _ E).
Qed.

Lemma fromReviewUri_propagates_witness :
  fromReviewUri (js "not json") = Throw SyntaxError /\
  fromReviewUri [] = Throw SyntaxError.
Proof.
  split.
  - exact (proj1 (fromReviewUri_propagates (js "not json")) not_JSON_text_not_json).
  - exact (proj1 (fromReviewUri_propagates []) not_JSON_text_empty).
Defined.

(** C2, as stated, fails on valid JSON of the wrong shape: the query below is
    a JSON text with none of the fields of any params record, and the three
    decoders return the parsed object, not [undefined]. *)
Lemma decoders_wrong_shape_counterexample :
  JSON_text (json_text "{'unrelated':true}") /\
  fromPRUri (sample_uri (js "/a") (json_text "{'unrelated':true}"))
  = Normal (VObject [(js "unrelated", VBool true)]) /\
  fromGitHubURI (sample_uri (js "/a") (json_text "{'unrelated':true}"))
  = Normal (VObject [(js "unrelated", VBool true)]) /\
  fromFileChangeNodeUri (sample_uri (js "/a") (json_text "{'unrelated':true}"))
  = Normal (VObject [(js "unrelated", VBool true)]) /\
  Normal (VObject [(js "unrelated", VBool true)]) <> Normal VUndefined.
Proof.
  split.
  - apply (JSON_parse_sound _ (VObject [(js "unrelated", VBool true)])). reflexivity.
  - repeat split; try reflexivity. discriminate.
Qed.

(** C2, amended: the three decoders never throw, whatever the parser does;
    they return [undefined] when the query is the empty string, the text
    not json, or any other text that is not JSON; and when the query is a
    JSON text they return the value it denotes, of whatever shape. *)
Theorem decoders_swallow_parse_errors :
  forall uri : Uri.t,
    (forall parse,
       (exists v, Over.fromPRUri parse uri = Normal v) /\
       (exists v, Over.fromGitHubURI parse uri = Normal v) /\
       (exists v, Over.fromFileChangeNodeUri parse uri = Normal v)) /\
    (Uri.query uri = [] \/ Uri.query uri = js "not json" \/
     ~ JSON_text (Uri.query uri) ->
     fromPRUri uri = Normal VUndefined /\
     fromGitHubURI uri = Normal VUndefined /\
     fromFileChangeNodeUri uri = Normal VUndefined) /\
    (JSON_text (Uri.query uri) ->
     exists v,
       v <> VUndefined /\
       JSON_parse (Uri.query uri) = Normal v /\
       fromPRUri uri = Normal v /\
       fromGitHubURI uri = Normal v /\
       fromFileChangeNodeUri uri = Normal v).
Proof.
  intros uri. split; [|split].
  - intros parse.
    unfold Over.fromPRUri, Over.fromGitHubURI, Over.fromFileChangeNodeUri.
    destruct (Uri.query uri) as [|c q]; cbn [try_catch].
    + destruct (parse []); repeat split; eexists; reflexivity.
    + destruct (parse (c :: q)); repeat split; eexists; reflexivity.
  - intros H.
    assert (He : JSON_parse (Uri.query uri) = Throw SyntaxError).
    { destruct H as [H|[H|H]]; [rewrite H; reflexivity..|].
      exact (JSON_parse_invalid _ H). }
    unfold fromPRUri, fromGitHubURI, fromFileChangeNodeUri,
      Over.fromPRUri, Over.fromGitHubURI, Over.fromFileChangeNodeUri.
    rewrite He. destruct (Uri.query uri); repeat split.
  - intros H. apply JSON_parse_complete in H. destruct H as [v Hv].
    exists v. split; [intros ->; exact (JSON_parse_defined _ Hv)|].
    split; [exact Hv|].
    unfold fromPRUri, fromGitHubURI, fromFileChangeNodeUri,
      Over.fromPRUri, Over.fromGitHubURI, Over.fromFileChangeNodeUri.
    rewrite Hv. destruct (Uri.query uri) eqn:E; [discriminate|]. repeat split.
Qed.

Lemma decoders_swallow_parse_errors_witness :
  (fromPRUri (sample_uri (js "/a") (js "not json")) = Normal VUndefined /\
   fromGitHubURI (sample_uri (js "/a") (js "not json")) = Normal VUndefined /\
   fromFileChangeNodeUri (sample_uri (js "/a") (js "not json")) = Normal VUndefined) /\
  (fromPRUri (sample_uri (js "/a") []) = Normal VUndefined /\
   fromGitHubURI (sample_uri (js "/a") []) = Normal VUndefined /\
   fromFileChangeNodeUri (sample_uri (js "/a") []) = Normal VUndefined) /\
  (exists v,
     v <> VUndefined /\
     JSON_parse (js "[]") = Normal v /\
     fromPRUri (sample_uri (js "/a") (js "[]")) = Normal v /\
     fromGitHubURI (sample_uri (js "/a") (js "[]")) = Normal v /\
     fromFileChangeNodeUri (sample_uri (js "/a") (js "[]")) = Normal v).
Proof.
  split; [|split].
  - exact (proj1 (proj2 (decoders_swallow_parse_errors (sample_uri (js "/a") (js "not json"))))
                 (or_intror (or_introl eq_refl))).
  - exact (proj1 (proj2 (decoders_swallow_parse_errors (sample_uri (js "/a") [])))
                 (or_introl eq_refl)).
  - exact (proj2 (proj2 (decoders_swallow_parse_errors (sample_uri (js "/a") (js "[]"))))
                 (JSON_parse_sound (js "[]") (VArray []) eq_refl)).
Defined.

(** ** resolvePath *)

(** C5: from a URI of scheme file the result is the native resolution of
    [to] against the URI's file-system path; from a URI of any other scheme it
    is the POSIX resolution of [to] against the URI's path, and then neither
    the native resolver nor the file-system path has any part in it. *)
Theorem resolvePath_by_scheme :
  forall (native_resolve posix_resolve : jsstring -> jsstring -> jsstring)
         (fsPath : Uri.t -> jsstring) (from : Uri.t) (to : jsstring),
    (Uri.scheme from = Schemas.file ->
     resolvePath native_resolve posix_resolve fsPath from to
     = native_resolve (fsPath from) to) /\
    (Uri.scheme from <> Schemas.file ->
     resolvePath native_resolve posix_resolve fsPath from to
     = posix_resolve (Uri.path from) to /\
     forall native_resolve' fsPath',
       resolvePath native_resolve' posix_resolve fsPath' from to
       = resolvePath native_resolve posix_resolve fsPath from to).
Proof.
  intros native_resolve posix_resolve fsPath from to. unfold resolvePath. split.
  - intros ->. rewrite jsstring_eqb_refl. reflexivity.
  - intros H. apply jsstring_eqb_neq in H. rewrite H. split; reflexivity.
Qed.

Lemma resolvePath_by_scheme_witness :
  resolvePath join_backslash join_slash Uri.path
              (Uri.mk (js "file") [] (js "/work/repo") [] []) (js "src/a.ts")
  = join_backslash (js "/work/repo") (js "src/a.ts") /\
  resolvePath join_backslash join_slash Uri.path
              (Uri.mk (js "review") [] (js "/work/repo") [] []) (js "src/a.ts")
  = join_slash (js "/work/repo") (js "src/a.ts").
Proof.
  split.
  - exact (proj1 (resolvePath_by_scheme join_backslash join_slash Uri.path
                    (Uri.mk (js "file") [] (js "/work/repo") [] []) (js "src/a.ts"))
                 eq_refl).
  - refine (proj1 (proj2 (resolvePath_by_scheme join_backslash join_slash Uri.path
                    (Uri.mk (js "review") [] (js "/work/repo") [] []) (js "src/a.ts")) _)).
    discriminate.
Defined.

(** ** asImageDataURI *)

Section ImageDataFacts.

Variables GitObject Buffer : Type.
Variable fsPath : Uri.t -> jsstring.
Variables dirname basename : jsstring -> jsstring.
Variable TemporaryState_write :
  jsstring -> jsstring -> Buffer -> completion (promise (option Uri.t)).

Let run := asImageDataURI GitObject Buffer fsPath dirname basename TemporaryState_write.
Let body := asImageDataURI_try GitObject Buffer fsPath dirname basename TemporaryState_write.

(** Whatever is thrown inside the [try] block, the function returns
    nothing. *)
Lemma asImageDataURI_caught (uri : Uri.t) (repository : Repository GitObject Buffer)
      (e : exn) :
  body uri repository = Throw e -> run uri repository = Fulfilled None.
Proof. unfold run, body, asImageDataURI. intros ->. reflexivity. Qed.

(** Each awaited step that throws makes the [try] block throw. *)
Lemma asImageDataURI_try_throws (uri : Uri.t) (repository : Repository GitObject Buffer) :
  (forall e, JSON_parse (Uri.query uri) = Throw e -> body uri repository = Throw e) /\
  (forall v q,
     JSON_parse (Uri.query uri) = Normal v -> destructure v = Normal q ->
     (forall e,
        getObjectDetails _ _ repository (image_ref uri q) (fsPath uri) = Throw e ->
        body uri repository = Throw e) /\
     (forall object,
        getObjectDetails _ _ repository (image_ref uri q) (fsPath uri) = Normal object ->
        (forall e, detectObjectType _ _ repository object = Throw e ->
                   body uri repository = Throw e) /\
        (forall mimetype,
           detectObjectType _ _ repository object = Normal mimetype ->
           mimetype <> js "text/plain" ->
           (indexOf ImageMimetypes mimetype > -1)%Z ->
           (forall e, buffer _ _ repository (image_ref uri q) (fsPath uri) = Throw e ->
                      body uri repository = Throw e) /\
           (forall contents,
              buffer _ _ repository (image_ref uri q) (fsPath uri) = Normal contents ->
              (as_string (q_path q) = None -> body uri repository = Throw TypeError) /\
              (forall p e,
                 q_path q = VString p ->
                 TemporaryState_write (dirname p) (basename p) contents = Throw e ->
                 body uri repository = Throw e))))).
Proof.
  unfold body, asImageDataURI_try. split.
  - intros e ->. reflexivity.
  - intros v q Hv Hq. rewrite Hv. cbn [bind]. rewrite Hq. cbn [bind]. split.
    + intros e ->. reflexivity.
    + intros object ->. cbn [bind]. split.
      * intros e ->. reflexivity.
      * intros mimetype -> Hplain Himg. cbn [bind].
        apply jsstring_eqb_neq in Hplain. rewrite Hplain.
        assert (Hgt : (indexOf ImageMimetypes mimetype >? -1)%Z = true)
          by (apply Z.gtb_lt; lia).
        rewrite Hgt. split.
        -- intros e ->. reflexivity.
        -- intros contents ->. cbn [bind]. split.
           ++ destruct (q_path q); cbn; congruence.
           ++ intros p e Hp Hw. rewrite Hp. cbn [path_call bind].
              rewrite Hw. reflexivity.
Qed.

(** On plain text the function returns nothing; on any type that is
    neither plain text nor a recognized image type, likewise. *)
Lemma asImageDataURI_not_image (uri : Uri.t) (repository : Repository GitObject Buffer)
      (v : value) (q : ImageQuery) (object : GitObject) (mimetype : jsstring) :
  JSON_parse (Uri.query uri) = Normal v -> destructure v = Normal q ->
  getObjectDetails _ _ repository (image_ref uri q) (fsPath uri) = Normal object ->
  detectObjectType _ _ repository object = Normal mimetype ->
  mimetype = js "text/plain" \/ (indexOf ImageMimetypes mimetype = -1)%Z ->
  run uri repository = Fulfilled None.
Proof.
  unfold run, asImageDataURI, asImageDataURI_try.
  intros Hv Hq Ho Hm H. rewrite Hv. cbn [bind]. rewrite Hq. cbn [bind].
  rewrite Ho. cbn [bind]. rewrite Hm. cbn [bind].
  destruct H as [->|H].
  - reflexivity.
  - rewrite H. destruct (jsstring_eqb mimetype (js "text/plain")); reflexivity.
Qed.

(** On a recognized image type, with the contents fetched and a string for
    the path, the function's promise is the promise the write returned,
    settled as that one settles. *)
Lemma asImageDataURI_image (uri : Uri.t) (repository : Repository GitObject Buffer)
      (v : value) (q : ImageQuery) (object : GitObject) (mimetype p : jsstring)
      (contents : Buffer) (written : promise (option Uri.t)) :
  JSON_parse (Uri.query uri) = Normal v -> destructure v = Normal q ->
  getObjectDetails _ _ repository (image_ref uri q) (fsPath uri) = Normal object ->
  detectObjectType _ _ repository object = Normal mimetype ->
  In mimetype ImageMimetypes ->
  buffer _ _ repository (image_ref uri q) (fsPath uri) = Normal contents ->
  q_path q = VString p ->
  TemporaryState_write (dirname p) (basename p) contents = Normal written ->
  run uri repository = written.
Proof.
  unfold run, asImageDataURI, asImageDataURI_try.
  intros Hv Hq Ho Hm Hin Hb Hp Hw. rewrite Hv. cbn [bind]. rewrite Hq. cbn [bind].
  rewrite Ho. cbn [bind]. rewrite Hm. cbn [bind].
  assert (Hi : jsstring_eqb mimetype (js "text/plain") = false /\
               (indexOf ImageMimetypes mimetype >? -1)%Z = true).
  { cbn [In ImageMimetypes] in Hin.
    repeat (destruct Hin as [<-|Hin]; [split; reflexivity|]). contradiction. }
  destruct Hi as [-> ->]. rewrite Hb. cbn [bind]. rewrite Hp. cbn [path_call bind].
  rewrite Hw. reflexivity.
Qed.

(** A query without a string under path never leads to a written file:
    whatever the repository and the store do, the function returns nothing. *)
Lemma asImageDataURI_no_path (uri : Uri.t) (repository : Repository GitObject Buffer)
      (v : value) :
  JSON_parse (Uri.query uri) = Normal v ->
  as_string (Get v (js "path")) = None ->
  run uri repository = Fulfilled None.
Proof.
  unfold run, asImageDataURI, asImageDataURI_try. intros Hv Hp. rewrite Hv. cbn [bind].
  destruct (destructure v) as [q|e] eqn:Hq; [|reflexivity]. cbn [bind].
  assert (Hqp : q_path q = Get v (js "path")).
  { destruct v; cbn in Hq; try discriminate; injection Hq as <-; reflexivity. }
  destruct (getObjectDetails _ _ repository _ _) as [object|e]; [|reflexivity].
  cbn [bind].
  destruct (detectObjectType _ _ repository object) as [mimetype|e]; [|reflexivity].
  cbn [bind].
  destruct (jsstring_eqb mimetype (js "text/plain")); [reflexivity|].
  destruct (indexOf ImageMimetypes mimetype >? -1)%Z; [|reflexivity].
  destruct (buffer _ _ repository _ _) as [contents|e]; [|reflexivity].
  cbn [bind]. rewrite Hqp.
  destruct (Get v (js "path")); cbn in Hp |- *; try reflexivity. discriminate.
Qed.

(** The query of a URI built by [toPRUri] has no path field, so for such a
    URI the function returns nothing, image or not. *)
Lemma asImageDataURI_of_toPRUri (uri : Uri.t) (model : PullRequestModel)
      (baseCommit headCommit fileName : jsstring) (base : bool) (status : GitChangeType)
      (repository : Repository GitObject Buffer) :
  run (toPRUri uri model baseCommit headCommit fileName base status) repository
  = Fulfilled None.
Proof.
  unfold toPRUri.
  match goal with
  | |- context [JSON_stringify (PRUriParams_object ?p)] =>
    destruct (PRUriParams_roundtrip p) as (t & Ht & Hp); rewrite Ht
  end.
  eapply asImageDataURI_no_path.
  - cbn [Uri.with_ Uri.query Uri.new_query Uri.pick]. exact Hp.
  - reflexivity.
Qed.

End ImageDataFacts.

(** C4: on a review URI of a PNG image, with every repository call
    succeeding, a temporary-store write whose promise is rejected makes the
    promise of [asImageDataURI] rejected with the same error: the [catch]
    clause does not see it, because the write's promise is returned without
    being awaited.  The same failure thrown during the call is caught. *)
Theorem asImageDataURI_write_rejection_escapes :
  asImageDataURI unit unit Uri.path (fun p => p) (fun p => p) write_rejecting
                 image_review_uri png_repository
  = Rejected write_error /\
  asImageDataURI unit unit Uri.path (fun p => p) (fun p => p) write_throwing
                 image_review_uri png_repository
  = Fulfilled None.
Proof. split; vm_compute; reflexivity. Qed.

(** ** Further properties of the codec *)

Lemma number_of_Z_inj (z z' : Z) : number_of_Z z = number_of_Z z' -> z = z'.
Proof.
  unfold number_of_Z. intros H. injection H as Hs Hm.
  destruct (Z.ltb_spec z 0), (Z.ltb_spec z' 0); try discriminate; lia.
Qed.

Lemma of_GitChangeType_inj (s s' : GitChangeType) :
  of_GitChangeType s = of_GitChangeType s' -> s = s'.
Proof.
  destruct s as [z|n], s' as [z'|n']; unfold of_GitChangeType, of_integer;
    intros H; try discriminate.
  - assert (Hn : number_of_Z z = number_of_Z z') by congruence.
    apply number_of_Z_inj in Hn. congruence.
  - injection H as ->. reflexivity.
Qed.

(** What reading a value at [ReviewUriParams] tells about the value. *)
Lemma ReviewUriParams_of_value_fields (v : value) (p : ReviewUriParams.t) :
  ReviewUriParams_of_value v = Some p ->
  (exists props, v = VObject props) /\
  Get v (js "path") = VString (ReviewUriParams.path p) /\
  Get v (js "commit") = of_optional_string (ReviewUriParams.commit p).
Proof.
  unfold ReviewUriParams_of_value.
  destruct (Get v (js "path")) as [| | | |s| |] eqn:Epath; cbn [as_string]; try discriminate.
  destruct (as_optional_string (Get v (js "ref"))); [|discriminate].
  destruct (Get v (js "commit")) as [| | | |c| |] eqn:Ecommit;
    cbn [as_optional_string]; try discriminate;
    (destruct (as_boolean _); [|discriminate]);
    (destruct (as_boolean _); [|discriminate]);
    (destruct (as_string _); [|discriminate]);
    intros H; injection H as <-; cbn;
    (split; [destruct v; try discriminate Epath; eexists; reflexivity|]);
    split; reflexivity.
Qed.

(** The query of a URI built by [toPRUri] and what it parses to. *)
Lemma toPRUri_query (uri : Uri.t) (model : PullRequestModel)
      (baseCommit headCommit fileName : jsstring) (base : bool) (status : GitChangeType) :
  JSON_parse (Uri.query (toPRUri uri model baseCommit headCommit fileName base status))
  = Normal (PRUriParams_object
              (PRUriParams.mk baseCommit headCommit base fileName (number model) status
                              (remoteName (remote (githubRepository model))))).
Proof.
  unfold toPRUri.
  match goal with
  | |- context [JSON_stringify (PRUriParams_object ?p)] =>
    destruct (PRUriParams_roundtrip p) as (t & Ht & Hp); rewrite Ht
  end.
  exact Hp.
Qed.





(** X2: the query of a review URI determines the params it was built from:
    two calls of [toReviewUri] that give the same query were given the same
    path (file path, or URI path where none was given), ref, commit, base
    flag, outdated flag and root path. *)
Theorem toReviewUri_query_injective :
  forall uri filePath ref commit isOutdated options rootUri
         uri' filePath' ref' commit' isOutdated' options' rootUri',
    Uri.query (toReviewUri uri filePath ref commit isOutdated options rootUri)
    = Uri.query (toReviewUri uri' filePath' ref' commit' isOutdated' options' rootUri') ->
    (match filePath with Some (c :: fp) => c :: fp | Some [] | None => Uri.path uri end)
    = (match filePath' with Some (c :: fp) => c :: fp | Some [] | None => Uri.path uri' end) /\
    ref = ref' /\ commit = commit' /\ base options = base options' /\
    isOutdated = isOutdated' /\ Uri.path rootUri = Uri.path rootUri'.
Proof.
  intros uri filePath ref commit isOutdated options rootUri
         uri' filePath' ref' commit' isOutdated' options' rootUri' H.
  destruct (proj2 toReviewUri_roundtrip_params uri filePath ref commit isOutdated
                  options rootUri) as (v & Hv & Hp).
  destruct (proj2 toReviewUri_roundtrip_params uri' filePath' ref' commit' isOutdated'
                  options' rootUri') as (v' & Hv' & Hp').
  rewrite H, Hv' in Hv. injection Hv as <-.
  rewrite Hp' in Hp. injection Hp as -> -> -> -> -> ->.
  repeat split.
Qed.

Lemma toReviewUri_query_injective_witness :
  js "/a/b.txt" = js "/a/b.txt" /\ Some (js "main") = Some (js "main") /\
  js "def456" = js "def456" /\ true = true /\ false = false /\ js "/root" = js "/root".
Proof.
  exact (toReviewUri_query_injective
           (sample_uri (js "/a/b.txt") []) None (Some (js "main")) (js "def456") false
           (mkGitUriOptions None None true) (sample_uri (js "/root") [])
           (Uri.mk (js "git") (js "host") (js "/other") (js "old") (js "frag"))
           (Some (js "/a/b.txt")) (Some (js "main")) (js "def456") false
           (mkGitUriOptions (Some true) (Some (js "sub")) true)
           (Uri.mk (js "file") [] (js "/root") (js "q") [])
           eq_refl).
Defined.

(** X3: the query of a pull-request URI determines the fields it was built
    from: two calls of [toPRUri] that give the same query were given the same
    base commit, head commit, base flag, file name, PR number, status and
    remote name. *)
Theorem toPRUri_query_injective :
  forall uri model baseCommit headCommit fileName base status
         uri' model' baseCommit' headCommit' fileName' base' status',
    Uri.query (toPRUri uri model baseCommit headCommit fileName base status)
    = Uri.query (toPRUri uri' model' baseCommit' headCommit' fileName' base' status') ->
    baseCommit = baseCommit' /\ headCommit = headCommit' /\ base = base' /\
    fileName = fileName' /\ number model = number model' /\ status = status' /\
    remoteName (remote (githubRepository model))
    = remoteName (remote (githubRepository model')).
Proof.
  intros uri model baseCommit headCommit fileName base status
         uri' model' baseCommit' headCommit' fileName' base' status' H.
  pose proof (toPRUri_query uri model baseCommit headCommit fileName base status) as Hv.
  pose proof (toPRUri_query uri' model' baseCommit' headCommit' fileName' base' status')
    as Hv'.
  rewrite H, Hv' in Hv. unfold PRUriParams_object, of_integer, of_string in Hv.
  cbn [PRUriParams.baseCommit PRUriParams.headCommit PRUriParams.isBase
       PRUriParams.fileName PRUriParams.prNumber PRUriParams.status
       PRUriParams.remoteName] in Hv.
  assert (Hn : number_of_Z (number model') = number_of_Z (number model)) by congruence.
  assert (Hst : of_GitChangeType status' = of_GitChangeType status) by congruence.
  apply number_of_Z_inj in Hn. apply of_GitChangeType_inj in Hst.
  repeat split; congruence.
Qed.

Lemma toPRUri_query_injective_witness :
  js "aaa" = js "aaa" /\ js "bbb" = js "bbb" /\ true = true /\
  js "src/a.ts" = js "src/a.ts" /\ 42%Z = 42%Z /\ ChangeCode 3 = ChangeCode 3 /\
  js "origin" = js "origin".
Proof.
  exact (toPRUri_query_injective
           (sample_uri (js "/w/src/a.ts") []) sample_model (js "aaa") (js "bbb")
           (js "src/a.ts") true (ChangeCode 3)
           (Uri.mk (js "git") (js "host") (js "/elsewhere") (js "old") [])
           sample_model (js "aaa") (js "bbb") (js "src/a.ts") true (ChangeCode 3)
           eq_refl).
Defined.






(** X7: the three swallowing decoders give the same result on every URI.
    The guard of [fromFileChangeNodeUri] against an empty query changes
    nothing, because [JSON.parse] throws on the empty text; it would matter
    only with a parser that accepted the empty text. *)
Theorem swallow_decoders_agree :
  (forall uri, fromPRUri uri = fromGitHubURI uri /\
               fromFileChangeNodeUri uri = fromPRUri uri) /\
  (forall parse uri,
     Uri.query uri <> [] \/ (exists e, parse [] = Throw e) ->
     Over.fromFileChangeNodeUri parse uri = Over.fromPRUri parse uri) /\
  (forall uri,
     Uri.query uri = [] ->
     Over.fromFileChangeNodeUri (fun _ => Normal VNull) uri = Normal VUndefined /\
     Over.fromPRUri (fun _ => Normal VNull) uri = Normal VNull).
Proof.
  split; [|split].
  - intros uri. split; [reflexivity|].
    unfold fromFileChangeNodeUri, fromPRUri, Over.fromFileChangeNodeUri, Over.fromPRUri.
    destruct (Uri.query uri); reflexivity.
  - intros parse uri H.
    unfold Over.fromFileChangeNodeUri, Over.fromPRUri.
    destruct (Uri.query uri) as [|c q]; [|reflexivity].
    destruct H as [H|[e H]]; [contradiction|]. rewrite H. reflexivity.
  - intros uri H. unfold Over.fromFileChangeNodeUri, Over.fromPRUri.
    rewrite H. split; reflexivity.
Qed.

Lemma swallow_decoders_agree_witness :
  Over.fromFileChangeNodeUri JSON_parse (sample_uri (js "/a") [])
  = Over.fromPRUri JSON_parse (sample_uri (js "/a") []) /\
  Over.fromFileChangeNodeUri (fun _ => Normal VNull) (sample_uri (js "/a") [])
  = Normal VUndefined /\
  Over.fromPRUri (fun _ => Normal VNull) (sample_uri (js "/a") []) = Normal VNull.
Proof.
  split.
  - exact (proj1 (proj2 swallow_decoders_agree) JSON_parse (sample_uri (js "/a") [])
                 (or_intror (ex_intro _ SyntaxError JSON_parse_empty))).
  - exact (proj2 (proj2 swallow_decoders_agree) (sample_uri (js "/a") []) eq_refl).
Defined.

(** X8: [fromReviewUri] returns a value exactly on the JSON texts and throws
    exactly on the queries that are not JSON texts. *)
Theorem fromReviewUri_returns_iff :
  forall query : jsstring,
    (JSON_text query <-> exists v, fromReviewUri query = Normal v) /\
    (~ JSON_text query <-> exists e, fromReviewUri query = Throw e).
Proof.
  intros query. unfold fromReviewUri, Over.fromReviewUri. split.
  - apply JSON_parse_valid.
  - split.
    + intros H. exists SyntaxError. exact (JSON_parse_invalid _ H).
    + intros [e H]. exact (JSON_parse_rejects _ _ H).
Qed.

(** ** Further properties of asImageDataURI *)

Lemma indexOf_from_In (l : list jsstring) (x : jsstring) :
  forall i, (0 <= i)%Z -> ((indexOf_from l x i > -1)%Z <-> In x l).
Proof.
  induction l as [|y l IH]; intros i Hi; cbn [indexOf_from In].
  - split; [lia|contradiction].
  - destruct (jsstring_eqb_spec y x) as [->|Hne].
    + split; [auto|lia].
    + rewrite (IH (i + 1)%Z) by lia. split; [auto|]. intros [H|H]; [contradiction|exact H].
Qed.

Lemma indexOf_In (l : list jsstring) (x : jsstring) :
  (indexOf l x > -1)%Z <-> In x l.
Proof. apply indexOf_from_In. lia. Qed.

Section ImageDataMore.

Variables GitObject Buffer : Type.
Variable fsPath : Uri.t -> jsstring.
Variables dirname basename : jsstring -> jsstring.
Variable TemporaryState_write :
  jsstring -> jsstring -> Buffer -> completion (promise (option Uri.t)).

Let run := asImageDataURI GitObject Buffer fsPath dirname basename TemporaryState_write.

(** An outcome other than nothing was reached on the one path through the
    function that ends in the write. *)
Lemma asImageDataURI_outcome_inversion :
  forall (uri : Uri.t) (repository : Repository GitObject Buffer),
    run uri repository <> Fulfilled None ->
    exists v q object mimetype contents p,
      JSON_parse (Uri.query uri) = Normal v /\
      destructure v = Normal q /\
      getObjectDetails _ _ repository (image_ref uri q) (fsPath uri) = Normal object /\
      detectObjectType _ _ repository object = Normal mimetype /\
      In mimetype ImageMimetypes /\
      mimetype <> js "text/plain" /\
      buffer _ _ repository (image_ref uri q) (fsPath uri) = Normal contents /\
      q_path q = VString p /\
      TemporaryState_write (dirname p) (basename p) contents
      = Normal (run uri repository).
Proof.
  intros uri repository. unfold run, asImageDataURI, asImageDataURI_try.
  destruct (JSON_parse (Uri.query uri)) as [v|e] eqn:Hv; cbn [bind];
    [|intros H; contradiction].
  destruct (destructure v) as [q|e] eqn:Hq; cbn [bind]; [|intros H; contradiction].
  destruct (getObjectDetails _ _ repository (image_ref uri q) (fsPath uri))
    as [object|e] eqn:Ho; cbn [bind]; [|intros H; contradiction].
  destruct (detectObjectType _ _ repository object) as [mimetype|e] eqn:Hm;
    cbn [bind]; [|intros H; contradiction].
  destruct (jsstring_eqb_spec mimetype (js "text/plain")) as [Hplain|Hplain];
    [intros H; contradiction|].
  destruct (indexOf ImageMimetypes mimetype >? -1)%Z eqn:Hi; [|intros H; contradiction].
  destruct (buffer _ _ repository (image_ref uri q) (fsPath uri))
    as [contents|e] eqn:Hb; cbn [bind]; [|intros H; contradiction].
  destruct (q_path q) as [| | | |p| |] eqn:Hp; cbn [path_call bind];
    try (intros H; contradiction).
  destruct (TemporaryState_write (dirname p) (basename p) contents) as [written|e] eqn:Hw;
    [|intros H; contradiction].
  intros _. exists v, q, object, mimetype, contents, p.
  repeat split; try assumption.
  apply indexOf_In. apply Z.gtb_lt in Hi. lia.
Qed.

(** X9: [asImageDataURI] gives an outcome other than nothing, a URI or a
    rejection, exactly when the query parses to a value with a string under
    path, the object is found, its type is one of the six image types, its
    contents are fetched, and [TemporaryState.write], called at the directory
    and base name of that path, returns a promise settled in that outcome. *)
Theorem asImageDataURI_outcome_iff :
  forall (uri : Uri.t) (repository : Repository GitObject Buffer)
         (outcome : promise (option Uri.t)),
    outcome <> Fulfilled None ->
    (run uri repository = outcome <->
     exists v q object mimetype contents p,
       JSON_parse (Uri.query uri) = Normal v /\
       destructure v = Normal q /\
       getObjectDetails _ _ repository (image_ref uri q) (fsPath uri) = Normal object /\
       detectObjectType _ _ repository object = Normal mimetype /\
       In mimetype ImageMimetypes /\
       buffer _ _ repository (image_ref uri q) (fsPath uri) = Normal contents /\
       q_path q = VString p /\
       TemporaryState_write (dirname p) (basename p) contents = Normal outcome).
Proof.
  intros uri repository outcome Hne. split.
  - intros H. rewrite <- H in Hne.
    destruct (asImageDataURI_outcome_inversion uri repository Hne)
      as (v & q & object & mimetype & contents & p & Hv & Hq & Ho & Hm & Hin & _ & Hb & Hp & Hw).
    exists v, q, object, mimetype, contents, p. rewrite <- H.
    repeat split; assumption.
  - intros (v & q & object & mimetype & contents & p & Hv & Hq & Ho & Hm & Hin & Hb & Hp & Hw).
    exact (asImageDataURI_image GitObject Buffer fsPath dirname basename
             TemporaryState_write uri repository v q object mimetype p contents outcome
             Hv Hq Ho Hm Hin Hb Hp Hw).
Qed.

(** X10: when the awaited steps succeed on a URI built by [toReviewUri], the
    object is looked up and fetched at the commit the URI was built with, on
    the file-system path of the review URI, and the file is written at the
    directory and base name of the path of the params (the file path, or the
    input URI's path where none was given); the result is the promise the
    write returned. *)
Theorem asImageDataURI_of_toReviewUri :
  forall uri filePath ref commit isOutdated options rootUri
         (repository : Repository GitObject Buffer)
         object mimetype contents written,
    let r := toReviewUri uri filePath ref commit isOutdated options rootUri in
    let p := match filePath with
             | Some (c :: fp) => c :: fp
             | Some [] | None => Uri.path uri
             end in
    getObjectDetails _ _ repository (VString commit) (fsPath r) = Normal object ->
    detectObjectType _ _ repository object = Normal mimetype ->
    In mimetype ImageMimetypes ->
    buffer _ _ repository (VString commit) (fsPath r) = Normal contents ->
    TemporaryState_write (dirname p) (basename p) contents = Normal written ->
    run r repository = written.
Proof.
  intros uri filePath ref commit isOutdated options rootUri repository
         object mimetype contents written r p Ho Hm Hin Hb Hw.
  destruct (proj2 toReviewUri_roundtrip_params uri filePath ref commit isOutdated
                  options rootUri) as (v & Hv & Hp).
  fold r in Hv. fold p in Hp.
  apply ReviewUriParams_of_value_fields in Hp.
  destruct Hp as ([props ->] & Hpath & Hcommit).
  cbn [ReviewUriParams.path ReviewUriParams.commit of_optional_string] in Hpath, Hcommit.
  unfold run.
  eapply (asImageDataURI_image GitObject Buffer fsPath dirname basename
            TemporaryState_write r repository (VObject props) _ object mimetype p
            contents written).
  - exact Hv.
  - reflexivity.
  - unfold image_ref. change (Uri.scheme r) with (js "review").
    rewrite jsstring_eqb_refl. cbn [q_commit]. rewrite Hcommit. exact Ho.
  - exact Hm.
  - exact Hin.
  - unfold image_ref. change (Uri.scheme r) with (js "review").
    rewrite jsstring_eqb_refl. cbn [q_commit]. rewrite Hcommit. exact Hb.
  - cbn [q_path]. exact Hpath.
  - exact Hw.
Qed.

(** X11: a failure of any awaited step gives nothing: a query that is not a
    JSON text, a query that is the JSON text null, a failed object lookup, a
    failed type detection, a failed fetch of the contents. *)
Theorem asImageDataURI_awaited_failures :
  forall (uri : Uri.t) (repository : Repository GitObject Buffer),
    (~ JSON_text (Uri.query uri) -> run uri repository = Fulfilled None) /\
    (JSON_parse (Uri.query uri) = Normal VNull -> run uri repository = Fulfilled None) /\
    (forall v q,
       JSON_parse (Uri.query uri) = Normal v -> destructure v = Normal q ->
       (forall e,
          getObjectDetails _ _ repository (image_ref uri q) (fsPath uri) = Throw e ->
          run uri repository = Fulfilled None) /\
       (forall object e,
          getObjectDetails _ _ repository (image_ref uri q) (fsPath uri) = Normal object ->
          detectObjectType _ _ repository object = Throw e ->
          run uri repository = Fulfilled None) /\
       (forall object mimetype e,
          getObjectDetails _ _ repository (image_ref uri q) (fsPath uri) = Normal object ->
          detectObjectType _ _ repository object = Normal mimetype ->
          buffer _ _ repository (image_ref uri q) (fsPath uri) = Throw e ->
          run uri repository = Fulfilled None)).
Proof.
  intros uri repository. unfold run, asImageDataURI, asImageDataURI_try.
  split; [|split].
  - intros H. rewrite (JSON_parse_invalid _ H). reflexivity.
  - intros ->. reflexivity.
  - intros v q -> Hq. cbn [bind]. rewrite Hq. cbn [bind]. split; [|split].
    + intros e ->. reflexivity.
    + intros object e -> He. cbn [bind]. rewrite He. reflexivity.
    + intros object mimetype e -> Hm Hb. cbn [bind]. rewrite Hm. cbn [bind].
      destruct (jsstring_eqb mimetype (js "text/plain")); [reflexivity|].
      destruct (indexOf ImageMimetypes mimetype >? -1)%Z; [|reflexivity].
      rewrite Hb. reflexivity.
Qed.

End ImageDataMore.

Lemma asImageDataURI_outcome_iff_witness :
  sample_asImageDataURI write_rejecting image_review_uri png_repository
  = Rejected write_error <->
  exists v q object mimetype contents p,
    JSON_parse (Uri.query image_review_uri) = Normal v /\
    destructure v = Normal q /\
    getObjectDetails _ _ png_repository (image_ref image_review_uri q)
                     (Uri.path image_review_uri) = Normal object /\
    detectObjectType _ _ png_repository object = Normal mimetype /\
    In mimetype ImageMimetypes /\
    buffer _ _ png_repository (image_ref image_review_uri q)
           (Uri.path image_review_uri) = Normal contents /\
    q_path q = VString p /\
    write_rejecting p p contents = Normal (Rejected write_error).
Proof.
  refine (asImageDataURI_outcome_iff unit unit Uri.path (fun p => p) (fun p => p)
            write_rejecting image_review_uri png_repository (Rejected write_error) _).
  discriminate.
Defined.

(** On plain text and on a type that is no image type the function gives
    nothing. *)
Lemma asImageDataURI_not_image_witness :
  sample_asImageDataURI write_fulfilling image_review_uri text_repository = Fulfilled None /\
  sample_asImageDataURI write_fulfilling image_review_uri pdf_repository = Fulfilled None.
Proof.
  split.
  - refine (asImageDataURI_not_image unit unit Uri.path (fun p => p) (fun p => p)
              write_fulfilling image_review_uri text_repository _ _ tt (js "text/plain")
              _ _ eq_refl eq_refl (or_introl eq_refl)); vm_compute; reflexivity.
  - refine (asImageDataURI_not_image unit unit Uri.path (fun p => p) (fun p => p)
              write_fulfilling image_review_uri pdf_repository _ _ tt
              (js "application/pdf") _ _ eq_refl eq_refl (or_intror eq_refl));
      vm_compute; reflexivity.
Defined.

Lemma asImageDataURI_of_toReviewUri_witness :
  sample_asImageDataURI write_fulfilling
    (toReviewUri (sample_uri (js "/w/img/logo.png") []) (Some (js "img/logo.png"))
                 (Some (js "main")) (js "def456") false
                 (mkGitUriOptions (Some true) None false) (sample_uri (js "/w") []))
    png_repository
  = Fulfilled (Some (written_uri (js "img/logo.png") (js "img/logo.png"))).
Proof.
  refine (asImageDataURI_of_toReviewUri unit unit Uri.path (fun p => p) (fun p => p)
            write_fulfilling
            (sample_uri (js "/w/img/logo.png") []) (Some (js "img/logo.png"))
            (Some (js "main")) (js "def456") false
            (mkGitUriOptions (Some true) None false) (sample_uri (js "/w") [])
            png_repository tt (js "image/png") tt
            (Fulfilled (Some (written_uri (js "img/logo.png") (js "img/logo.png"))))
            eq_refl eq_refl _ eq_refl eq_refl).
  simpl. tauto.
Defined.

Lemma asImageDataURI_awaited_failures_witness :
  sample_asImageDataURI write_fulfilling (sample_uri (js "/a") (js "not json")) png_repository
  = Fulfilled None /\
  sample_asImageDataURI write_fulfilling (sample_uri (js "/a") (js "null")) png_repository
  = Fulfilled None /\
  sample_asImageDataURI write_fulfilling image_review_uri failing_repository
  = Fulfilled None.
Proof.
  split; [|split].
  - exact (proj1 (asImageDataURI_awaited_failures unit unit Uri.path (fun p => p)
                    (fun p => p) write_fulfilling
                    (sample_uri (js "/a") (js "not json")) png_repository)
                 not_JSON_text_not_json).
  - exact (proj1 (proj2 (asImageDataURI_awaited_failures unit unit Uri.path (fun p => p)
                    (fun p => p) write_fulfilling
                    (sample_uri (js "/a") (js "null")) png_repository))
                 eq_refl).
  - refine (proj1 (proj2 (proj2 (asImageDataURI_awaited_failures unit unit Uri.path
                    (fun p => p) (fun p => p) write_fulfilling
                    image_review_uri failing_repository)) _ _ _ _) lookup_error _);
      vm_compute; reflexivity.
Defined.

Lemma promise_eq_nothing (pr : promise (option Uri.t)) :
  pr = Fulfilled None \/ pr <> Fulfilled None.
Proof.
  destruct pr as [[u|]|e]; [right; discriminate|left; reflexivity|right; discriminate].
Qed.

Section ImageDataNever.

Variables GitObject Buffer : Type.
Variable fsPath : Uri.t -> jsstring.
Variables dirname basename : jsstring -> jsstring.
Variable TemporaryState_write :
  jsstring -> jsstring -> Buffer -> completion (promise (option Uri.t)).

Let run := asImageDataURI GitObject Buffer fsPath dirname basename TemporaryState_write.

(** X12: with a repository that never detects one of the six image types,
    plain text included, [asImageDataURI] gives nothing on every URI, and the
    temporary store has no part in the result. *)
Theorem asImageDataURI_nothing_unless_image :
  forall (uri : Uri.t) (repository : Repository GitObject Buffer),
    (forall object mimetype,
       detectObjectType _ _ repository object = Normal mimetype ->
       ~ In mimetype ImageMimetypes) ->
    run uri repository = Fulfilled None /\
    forall write',
      asImageDataURI GitObject Buffer fsPath dirname basename write' uri repository
      = Fulfilled None.
Proof.
  intros uri repository H.
  assert (Hall : forall write',
             asImageDataURI GitObject Buffer fsPath dirname basename write' uri repository
             = Fulfilled None).
  { intros write'.
    destruct (promise_eq_nothing
                (asImageDataURI GitObject Buffer fsPath dirname basename write' uri repository))
      as [Heq|Hne]; [exact Heq|exfalso].
    destruct (asImageDataURI_outcome_inversion GitObject Buffer fsPath dirname basename
                write' uri repository Hne)
      as (v & q & object & mimetype & contents & p & _ & _ & _ & Hm & Hin & _).
    exact (H object mimetype Hm Hin). }
  split; [apply Hall|exact Hall].
Qed.


End ImageDataNever.

Lemma asImageDataURI_nothing_unless_image_witness :
  sample_asImageDataURI write_rejecting image_review_uri text_repository = Fulfilled None /\
  forall write',
    asImageDataURI unit unit Uri.path (fun p => p) (fun p => p) write'
                   image_review_uri text_repository
    = Fulfilled None.
Proof.
  refine (asImageDataURI_nothing_unless_image unit unit Uri.path (fun p => p) (fun p => p)
            write_rejecting image_review_uri text_repository _).
  intros object mimetype H. injection H as <-. simpl.
  intros [H|[H|[H|[H|[H|[H|[]]]]]]]; discriminate H.
Defined.
